(** * ReadySetHire: the interview-taking flow and the AI question layer

    A shallow embedding of
    - [llm-api-server/server.js] (the [/api/generate-question] handler),
    - [ReadySetHire/src/components/Questions.jsx] (the client-side schema,
      [fetchAIQuestions], [questionPromiseCache], [getQuestionPromise]),
    - [ReadySetHire/src/app.js] ([apiRequest], [submitApplicantAnswer],
      [updateApplicantStatus]),
    - the components [TakeInterviewWelcome] ([startInterview]) and
      [InterviewQuestion] ([goToNextQuestion] and the recording handlers),
    followed by the properties of the specification stated over it. *)

From stdpp Require Import base option list strings gmap.
From Stdlib Require Import ZArith Lia.

Set Warnings "-register-all".

Open Scope string_scope.
Open Scope Z_scope.

(** ** JavaScript values as they cross the JSON boundary *)

Module JS.

(** What [res.json()] or the structured-output chain can hand back; an object
    is the list of its own properties, read by key. [VUndefined] is what a
    property read yields when the key is absent. *)
Inductive Value :=
| VUndefined
| VNull
| VBool (b : bool)
| VNum (n : Z)
| VStr (s : string)
| VArr (items : list Value)
| VObj (fields : list (string * Value)).

(** [obj[key]] on a plain object. *)
Fixpoint get (key : string) (fields : list (string * Value)) : Value :=
  match fields with
  | [] => VUndefined
  | (k, v) :: rest => if String.eqb k key then v else get key rest
  end.

(** JavaScript truthiness, as used by [!x] and [x || y]. *)
Definition truthy (v : Value) : bool :=
  match v with
  | VUndefined | VNull => false
  | VBool b => b
  | VNum n => negb (n =? 0)
  | VStr s => negb (String.eqb s "")
  | VArr _ | VObj _ => true
  end.

(** [typeof v === "string"]. *)
Definition is_string (v : Value) : bool :=
  match v with VStr _ => true | _ => false end.

(** The characters of a value already known to be a string. *)
Definition string_of (v : Value) : string :=
  match v with VStr s => s | _ => "" end.

End JS.

Import JS.

(** ** The fragment of zod used by both schemas *)

Module Zod.

(** [z.string()], [z.enum([...])], [z.array(t)] with or without
    [.nonempty()], and [z.object({...})]. *)
Inductive ZodType :=
| ZString
| ZEnum (options : list string)
| ZArray (element : ZodType) (nonempty : bool)
| ZObject (shape : list (string * ZodType)).

(** Parses every item; one failing item fails the array. *)
Fixpoint parse_items (p : Value → option Value) (items : list Value)
  : option (list Value) :=
  match items with
  | [] => Some []
  | v :: rest =>
      match p v, parse_items p rest with
      | Some v', Some rest' => Some (v' :: rest')
      | _, _ => None
      end
  end.

(** [schema.safeParse(v)]: [Some data] stands for [{success: true, data}],
    [None] for [{success: false, error}]. An object schema reads exactly the
    keys of its shape (unknown keys are stripped from [data]). *)
Fixpoint safeParse (t : ZodType) (v : Value) {struct t} : option Value :=
  match t with
  | ZString =>
      match v with VStr _ => Some v | _ => None end
  | ZEnum options =>
      match v with
      | VStr s => if existsb (String.eqb s) options then Some v else None
      | _ => None
      end
  | ZArray element nonempty =>
      match v with
      | VArr items =>
          if nonempty && (Nat.eqb (length items) 0) then None
          else VArr <$> parse_items (safeParse element) items
      | _ => None
      end
  | ZObject shape =>
      match v with
      | VObj fields =>
          VObj <$>
            (fix parse_shape (sh : list (string * ZodType))
               : option (list (string * Value)) :=
               match sh with
               | [] => Some []
               | (k, tk) :: sh' =>
                   match safeParse tk (get k fields), parse_shape sh' with
                   | Some vk, Some out => Some ((k, vk) :: out)
                   | _, _ => None
                   end
               end) shape
      | _ => None
      end
  end.

End Zod.

Import Zod.

(** ** The question schema (identical in server.js and Questions.jsx) *)

Definition difficulties : list string := ["Easy"; "Intermediate"; "Advanced"].

Definition ItemSchema : ZodType :=
  ZObject [("question", ZString); ("difficulty", ZEnum difficulties)].

Definition QuestionSchema : ZodType :=
  ZObject [("questions", ZArray ItemSchema true)].

(** A thrown [Error]: only its message is kept. *)
Inductive Result (A : Type) :=
| Ok (a : A)
| Throw (message : string).
Arguments Ok {A} a.
Arguments Throw {A} message.

(** ** llm-api-server/server.js *)

Module Server.

Record Request := {
  method : string;
  query_job_role : Value;   (* req.query.job_role *)
  body : Value              (* req.body *)
}.

Record Response := {
  status : Z;
  json : Value
}.

(** [v?.key] *)
Definition optional_member (v : Value) (key : string) : Value :=
  match v with
  | VObj fields => get key fields
  | _ => VUndefined
  end.

Section Handler.

(** [prompt.pipe(modelWithSchema).invoke({roledescription})]: the hosted
    model is outside the repository; [None] stands for a rejected call. *)
Variable invoke : string → option Value.

(** The handler of [app.all("/api/generate-question")]. The [details]
    member of the 502 body (the flattened zod error) is not kept. *)
Definition generate_question (req : Request) : Response :=
  let roledescription :=
    if String.eqb (method req) "GET" then query_job_role req
    else optional_member (body req) "job_role" in
  if negb (truthy roledescription) || negb (is_string roledescription) then
    {| status := 400;
       json := VObj [("error", VStr "Role Description is required")] |}
  else
    match invoke (string_of roledescription) with
    | None =>
        {| status := 500;
           json := VObj [("error", VStr "Failed to generate interview questions, ensure role description and interview is added first.")] |}
    | Some result =>
        match safeParse QuestionSchema result with
        | None =>
            {| status := 502;
               json := VObj [("error", VStr "Model returned invalid schema")] |}
        | Some data => {| status := 200; json := data |}
        end
    end.

End Handler.

(** The items of a response body, [body.questions]. *)
Definition questions_of (r : Response) : list Value :=
  match optional_member (json r) "questions" with
  | VArr items => items
  | _ => []
  end.

(** How many items of a list carry the given difficulty. *)
Definition has_difficulty (d : string) (v : Value) : bool :=
  match optional_member v "difficulty" with
  | VStr s => String.eqb s d
  | _ => false
  end.

Definition count_difficulty (d : string) (items : list Value) : nat :=
  length (List.filter (has_difficulty d) items).

End Server.

(** ** Questions.jsx: fetching, validating and caching suggestions *)

Module Generation.

(** What [fetch] resolves to, as far as [fetchAIQuestions] reads it:
    [res.ok], [res.text()] and [res.json()], the last two possibly
    rejecting. *)
Record HttpResponse := {
  ok : bool;
  text : option string;
  json : option Value
}.

(** The [.then] callback of [fetchAIQuestions]. *)
Definition fetchAIQuestions_then (res : HttpResponse) : Result Value :=
  if negb (ok res) then
    let msg := default "" (text res) in
    Throw (if String.eqb msg "" then "Failed to generate questions" else msg)
  else
    match json res with
    | None => Throw "Unexpected token"
    | Some data =>
        match safeParse QuestionSchema data with
        | None => Throw "Questions did not match expected schema"
        | Some parsed => Ok (Server.optional_member parsed "questions")
        end
    end.

(** A promise is a cell of the promise table; its handle is its index. *)
Inductive Promise :=
| Pending
| Fulfilled (v : Value)
| Rejected (message : string).

(** The module-level state: [questionPromiseCache], the promises created so
    far, and the job roles of the requests sent to the generation server,
    in order of sending. *)
Record State := {
  questionPromiseCache : gmap string nat;
  promises : list Promise;
  requests : list string
}.

(** Module load: [new Map()], nothing requested. *)
Definition init : State :=
  {| questionPromiseCache := ∅; promises := []; requests := [] |}.

(** [fetchAIQuestions(job_role)]: sends the POST and returns the promise
    chained on it, still pending. *)
Definition fetchAIQuestions (job_role : string) (st : State) : nat * State :=
  (length (promises st),
   {| questionPromiseCache := questionPromiseCache st;
      promises := promises st ++ [Pending];
      requests := requests st ++ [job_role] |}).

(** [getQuestionPromise(job_role)]; the result is what [Map.get] returns. *)
Definition getQuestionPromise (job_role : string) (st : State)
  : option nat * State :=
  let st1 :=
    match questionPromiseCache st !! job_role with
    | None =>
        let '(p, st') := fetchAIQuestions job_role st in
        {| questionPromiseCache := <[job_role := p]> (questionPromiseCache st');
           promises := promises st';
           requests := requests st' |}
    | Some _ => st
    end in
  (questionPromiseCache st1 !! job_role, st1).

(** The network answers the request behind promise [p] (or the request
    fails with [None]): the promise settles once. *)
Definition settle (p : nat) (res : option HttpResponse) (st : State) : State :=
  match promises st !! p with
  | Some Pending =>
      let outcome :=
        match res with
        | None => Rejected "Failed to fetch"
        | Some r =>
            match fetchAIQuestions_then r with
            | Ok v => Fulfilled v
            | Throw m => Rejected m
            end
        end in
      {| questionPromiseCache := questionPromiseCache st;
         promises := <[p := outcome]> (promises st);
         requests := requests st |}
  | _ => st
  end.

(** Everything that can happen to the module state. *)
Inductive Event :=
| Call (job_role : string)
| Settle (p : nat) (res : option HttpResponse).

Definition step (st : State) (e : Event) : State :=
  match e with
  | Call r => snd (getQuestionPromise r st)
  | Settle p res => settle p res st
  end.

Definition run (evs : list Event) (st : State) : State :=
  foldl step st evs.

End Generation.

(** ** The applicant's interview-taking flow *)

Module Interview.

(** A question as [getQuestionsByInterview] returns it. *)
Record Question := {
  id : Z;
  question : string;
  difficulty : string
}.

(** The body built by [goToNextQuestion]. The three ids are the route
    parameters after [parseInt]; a route parameter is written by the
    application itself from a numeric id, so it is kept as that number. *)
Record AnswerData := {
  interview_id : Z;
  question_id : Z;
  applicant_id : Z;
  answer : string
}.

(** [USERNAME] of app.js, added to every request body. *)
Definition USERNAME : string := "".

(** The two writes of the flow, as [apiRequest] sends them:
    [POST /applicant_answer] and [PATCH /applicant?id=eq.<id>]. *)
Inductive ApiCall :=
| PostAnswer (data : AnswerData)
| PatchApplicant (applicantId : Z) (status : string).

(** Modelled from the spec: the REST resource store is an external
    collaborator (section 6: create, filtered read, update). Only the two
    tables the flow writes are kept, and of an applicant row only the two
    columns a PATCH from [updateApplicantStatus] sets. *)
Record ApplicantRow := {
  interview_status : string;
  username : string
}.

Record Store := {
  applicant_answer : list (AnswerData * string);
  applicant : gmap Z ApplicantRow
}.

(** Modelled from the spec: what an accepted write does to the store. A
    create appends a row; an update overwrites the sent columns of the rows
    selected by the filter, and selects nothing when the id is unknown. *)
Definition store_apply (c : ApiCall) (s : Store) : Store :=
  match c with
  | PostAnswer data =>
      {| applicant_answer := applicant_answer s ++ [(data, USERNAME)];
         applicant := applicant s |}
  | PatchApplicant applicantId status =>
      {| applicant_answer := applicant_answer s;
         applicant :=
           alter (λ _, {| interview_status := status; username := USERNAME |})
                 applicantId (applicant s) |}
  end.

(** What [useSpeechRecognition] exposes. *)
Record Speech := {
  transcript : string;
  listening : bool;
  browserSupportsSpeechRecognition : bool;
  isMicrophoneAvailable : bool
}.

(** The [useState] cells of [InterviewQuestion]. [answers_identity] changes
    whenever [setAnswers] installs a new object: it is what the dependency
    array of the effect compares. *)
Record Component := {
  answers : gmap Z string;
  answers_identity : nat;
  submitting : bool;
  isPaused : bool
}.

(** The three screens under [/applicant/:applicantId/interview/:interviewId]. *)
Inductive Route :=
| Welcome
| QuestionRoute (questionId : Z)
| Complete.

(** Whether route [r] shows the question [q]. *)
Definition same_question (r : Route) (q : Z) : bool :=
  match r with
  | QuestionRoute q0 => q0 =? q
  | _ => false
  end.

Record World := {
  store : Store;
  calls : list ApiCall;       (* every request sent, in order *)
  route : Route;
  alerts : list string;       (* every [window.alert], in order *)
  speech : Speech;
  comp : Component
}.

Definition with_store (s : Store) (w : World) : World :=
  {| store := s; calls := calls w; route := route w; alerts := alerts w;
     speech := speech w; comp := comp w |}.
Definition with_calls (cs : list ApiCall) (w : World) : World :=
  {| store := store w; calls := cs; route := route w; alerts := alerts w;
     speech := speech w; comp := comp w |}.
Definition with_route (r : Route) (w : World) : World :=
  {| store := store w; calls := calls w; route := r; alerts := alerts w;
     speech := speech w; comp := comp w |}.
Definition with_alerts (a : list string) (w : World) : World :=
  {| store := store w; calls := calls w; route := route w; alerts := a;
     speech := speech w; comp := comp w |}.
Definition with_speech (s : Speech) (w : World) : World :=
  {| store := store w; calls := calls w; route := route w; alerts := alerts w;
     speech := s; comp := comp w |}.
Definition with_comp (c : Component) (w : World) : World :=
  {| store := store w; calls := calls w; route := route w; alerts := alerts w;
     speech := speech w; comp := c |}.

(** *** Handlers as state transformers that may throw *)

Definition M (A : Type) : Type := World → Result A * World.

Definition ret {A} (a : A) : M A := λ w, (Ok a, w).

Definition bind {A B} (m : M A) (k : A → M B) : M B :=
  λ w, match m w with
       | (Ok a, w1) => k a w1
       | (Throw e, w1) => (Throw e, w1)
       end.

Definition throw {A} (e : string) : M A := λ w, (Throw e, w).

Definition modify (f : World → World) : M unit := λ w, (Ok tt, f w).

Definition when (b : bool) (m : M unit) : M unit := if b then m else ret tt.

#[global] Instance M_ret : MRet M := @ret.
#[global] Instance M_bind : MBind M := λ A B k m, bind m k.

(** [try { body } catch (error) { handler } finally { fin }] *)
Definition try_catch_finally (body : M unit) (handler : string → M unit)
    (fin : M unit) : M unit :=
  λ w,
    let '(r, w1) :=
      match body w with
      | (Ok a, w1) => (Ok a, w1)
      | (Throw e, w1) => handler e w1
      end in
    match fin w1 with
    | (Ok _, w2) => (r, w2)
    | (Throw e, w2) => (Throw e, w2)
    end.

(** [Array.prototype.findIndex]: [-1] when no element satisfies [p]. *)
Fixpoint findIndex {A} (p : A → bool) (l : list A) : Z :=
  match l with
  | [] => -1
  | x :: rest =>
      if p x then 0
      else let i := findIndex p rest in if i =? -1 then -1 else i + 1
  end.

(** [l[i]] for a number [i]: [None] is [undefined]. *)
Definition at_index {A} (l : list A) (i : Z) : option A :=
  if i <? 0 then None else l !! Z.to_nat i.

(** [transcript || ''] *)
Definition or_empty (t : string) : string :=
  if truthy (VStr t) then t else "".

Definition setSubmitting (b : bool) : M unit :=
  modify (λ w, with_comp {| answers := answers (comp w);
                            answers_identity := answers_identity (comp w);
                            submitting := b;
                            isPaused := isPaused (comp w) |} w).

Definition setIsPaused (b : bool) : M unit :=
  modify (λ w, with_comp {| answers := answers (comp w);
                            answers_identity := answers_identity (comp w);
                            submitting := submitting (comp w);
                            isPaused := b |} w).

(** [setAnswers(prev => ({...prev, [questionId]: answerToSubmit}))] *)
Definition setAnswers (questionId : Z) (a : string) : M unit :=
  modify (λ w, with_comp {| answers := <[questionId := a]> (answers (comp w));
                            answers_identity := S (answers_identity (comp w));
                            submitting := submitting (comp w);
                            isPaused := isPaused (comp w) |} w).

Definition set_listening (b : bool) : M unit :=
  modify (λ w, with_speech
    {| transcript := transcript (speech w);
       listening := b;
       browserSupportsSpeechRecognition :=
         browserSupportsSpeechRecognition (speech w);
       isMicrophoneAvailable := isMicrophoneAvailable (speech w) |} w).

Definition set_transcript (t : string) : M unit :=
  modify (λ w, with_speech
    {| transcript := t;
       listening := listening (speech w);
       browserSupportsSpeechRecognition :=
         browserSupportsSpeechRecognition (speech w);
       isMicrophoneAvailable := isMicrophoneAvailable (speech w) |} w).

(** Modelled from the spec: the browser speech-recognition engine behind
    react-speech-recognition (section 4.3: the transcript is append-only
    while capturing, retained while stopped, emptied by a reset). *)
Definition startListening : M unit := set_listening true.
Definition stopListening : M unit := set_listening false.
Definition resetTranscript : M unit := set_transcript "".
Definition hear (words : string) : M unit :=
  λ w, when (listening (speech w))
            (set_transcript (transcript (speech w) ++ words)) w.

Definition alert (msg : string) : M unit :=
  modify (λ w, with_alerts (alerts w ++ [msg]) w).

Definition navigate (r : Route) : M unit := modify (with_route r).

Section Flow.

(** The two other route parameters and the question list of the outlet
    context: fixed for the life of one page load. *)
Variables (interviewId applicantId : Z) (questions : list Question).

(** Whether the [n]-th request of the page (counting from 0) comes back
    with [response.ok]. A request that does not is not applied. *)
Variable net : nat → bool.

(** [apiRequest] for the two writes: the request is sent, and either the
    store applies it or [apiRequest] throws. *)
Definition apiRequest (c : ApiCall) : M unit :=
  λ w,
    let n := length (calls w) in
    let w1 := with_calls (calls w ++ [c]) w in
    if net n then (Ok tt, with_store (store_apply c (store w)) w1)
    else (Throw "HTTP error!", w1).

Definition submitApplicantAnswer (answerData : AnswerData) : M unit :=
  apiRequest (PostAnswer answerData).

Definition updateApplicantStatus (applicantId' : Z) (status : string) : M unit :=
  apiRequest (PatchApplicant applicantId' status).

(** *** TakeInterviewWelcome *)

Definition startInterview : M unit :=
  match questions with
  | q0 :: _ => navigate (QuestionRoute (id q0))
  | [] => ret tt
  end.

(** The [disabled] attribute of the start button. *)
Definition start_disabled : bool := Nat.eqb (length questions) 0.

(** *** InterviewQuestion *)

Definition currentQuestionIndex (questionId : Z) : Z :=
  findIndex (λ q, id q =? questionId) questions.

Definition currentQuestion (questionId : Z) : option Question :=
  at_index questions (currentQuestionIndex questionId).

Definition isLastQuestion (questionId : Z) : bool :=
  currentQuestionIndex questionId =? Z.of_nat (length questions) - 1.

Definition handleStartRecording : M unit :=
  setIsPaused false ;; startListening.

Definition handlePauseRecording : M unit :=
  setIsPaused true ;; stopListening.

Definition handleContinueRecording : M unit :=
  setIsPaused false ;; startListening.

(** [goToNextQuestion] of the component rendered for [questionId]; the
    values it closes over ([listening], [transcript]) are those of the
    render, read here from the world at the click. *)
Definition goToNextQuestion (questionId : Z) : M unit :=
  λ w0,
    let listening0 := listening (speech w0) in
    let transcript0 := transcript (speech w0) in
    (when listening0 handlePauseRecording ;;
     setSubmitting true ;;
     try_catch_finally
       (let answerToSubmit := or_empty transcript0 in
        let answerData :=
          {| interview_id := interviewId;
             question_id := questionId;
             applicant_id := applicantId;
             answer := answerToSubmit |} in
        submitApplicantAnswer answerData ;;
        setAnswers questionId answerToSubmit ;;
        when (isLastQuestion questionId)
             (updateApplicantStatus applicantId "Completed"))
       (λ _, alert "Error saving answer, please try again.")
       (setSubmitting false) ;;
     if negb (isLastQuestion questionId) then
       match at_index questions (currentQuestionIndex questionId + 1) with
       | Some next => navigate (QuestionRoute (id next))
       | None => throw "TypeError"
       end
     else navigate Complete) w0.

(** The effect with dependencies [questionId, resetTranscript, answers]. *)
Definition question_effect : M unit :=
  setIsPaused true ;; resetTranscript.

(** Which of the three recording buttons [getRecordingButton] returns. *)
Inductive RecordingButton := StartButton | PauseButton | ContinueButton.

#[global] Instance RecordingButton_eq_dec : EqDecision RecordingButton.
Proof. solve_decision. Defined.

Definition getRecordingButton (w : World) : option RecordingButton :=
  let l := listening (speech w) in
  let p := isPaused (comp w) in
  let t := truthy (VStr (transcript (speech w))) in
  if negb l && p && negb t then Some StartButton
  else if l && negb p then Some PauseButton
  else if negb l && p && t then Some ContinueButton
  else None.

(** The question screen proper is rendered only past the three early
    returns of the component. *)
Definition question_screen (questionId : Z) (w : World) : bool :=
  bool_decide (is_Some (currentQuestion questionId))
  && browserSupportsSpeechRecognition (speech w)
  && isMicrophoneAvailable (speech w).

(** *** What the applicant and the microphone can do *)

Inductive Event :=
| ClickStartInterview
| ClickStart
| ClickPause
| ClickContinue
| Speak (words : string)
| ClickNext.

(** State of a freshly mounted [InterviewQuestion]. *)
Definition mounted : Component :=
  {| answers := ∅; answers_identity := 0; submitting := false;
     isPaused := true |}.

(** Runs a handler and drops its result: an exception that escapes an event
    handler leaves the page as it is at that point. *)
Definition exec (m : M unit) (w : World) : World := snd (m w).

(** After a click on "next", React renders again: the effect runs if the
    component is still mounted and one of its dependencies changed. *)
Definition rerender (before after : World) : World :=
  match route after with
  | QuestionRoute q' =>
      if same_question (route before) q'
         && Nat.eqb (answers_identity (comp before))
                    (answers_identity (comp after))
      then after
      else exec question_effect after
  | _ => after
  end.

Definition recording_click (b : RecordingButton) (m : M unit) (w : World)
  : World :=
  match route w with
  | QuestionRoute q =>
      if question_screen q w then
        match getRecordingButton w with
        | Some b' =>
            if bool_decide (b' = b) then exec m w else w
        | None => w
        end
      else w
  | _ => w
  end.

(** One event, handled to its end. A click on "next" runs
    [goToNextQuestion] in one piece: nothing else happens on the page while
    its requests are awaited. *)
Definition handle (w : World) (e : Event) : World :=
  match e with
  | ClickStartInterview =>
      match route w with
      | Welcome =>
          if start_disabled then w
          else
            let w1 := exec startInterview w in
            match route w1 with
            | QuestionRoute _ => exec question_effect (with_comp mounted w1)
            | _ => w1
            end
      | _ => w
      end
  | ClickStart => recording_click StartButton handleStartRecording w
  | ClickPause => recording_click PauseButton handlePauseRecording w
  | ClickContinue => recording_click ContinueButton handleContinueRecording w
  | Speak words => exec (hear words) w
  | ClickNext =>
      match route w with
      | QuestionRoute q =>
          if question_screen q w && negb (submitting (comp w))
          then rerender w (exec (goToNextQuestion q) w)
          else w
      | _ => w
      end
  end.

Definition run (evs : list Event) (w : World) : World := foldl handle w evs.

End Flow.

(** How often the status update was sent. *)
Definition is_patch (c : ApiCall) : bool :=
  match c with PatchApplicant _ _ => true | PostAnswer _ => false end.

Definition gate_count (cs : list ApiCall) : nat :=
  length (List.filter is_patch cs).

Definition gate_calls (w : World) : nat := gate_count (calls w).

(** The page as [TakeInterviewLayout] first shows it. *)
Definition opened (s : Store) (supported microphone : bool) : World :=
  {| store := s; calls := []; route := Welcome; alerts := [];
     speech := {| transcript := ""; listening := false;
                  browserSupportsSpeechRecognition := supported;
                  isMicrophoneAvailable := microphone |};
     comp := mounted |}.

(** The confirmation paragraph of [InterviewComplete]. *)
Definition InterviewComplete_notice : string :=
  "Your responses have been successfully recorded.".

(** The notice on screen, if any. *)
Definition notice (w : World) : option string :=
  match route w with
  | Complete => Some InterviewComplete_notice
  | _ => None
  end.

End Interview.

(** ** The properties, in the words of the specification *)

Module Props.

(** An element with a string text and one of the three difficulty levels. *)
Definition valid_item (v : Value) : Prop :=
  ∃ fields q d,
    v = VObj fields ∧ get "question" fields = VStr q
    ∧ get "difficulty" fields = VStr d ∧ d ∈ difficulties.

(** A non-empty list of valid elements, carried (as on the wire) under the
    [questions] member of the response object. *)
Definition valid_suggestions (v : Value) : Prop :=
  ∃ fields items,
    v = VObj fields ∧ get "questions" fields = VArr items
    ∧ items ≠ [] ∧ Forall valid_item items.

(** An element as the validator hands it on: the two known members only. *)
Definition clean_item (v : Value) : Prop :=
  ∃ q d, v = VObj [("question", VStr q); ("difficulty", VStr d)]
         ∧ d ∈ difficulties.

(** The shape the prompt of server.js asks the model for. *)
Definition fixed_shape (items : list Value) : Prop :=
  length items = 10%nat
  ∧ Server.count_difficulty "Easy" items = 3%nat
  ∧ Server.count_difficulty "Intermediate" items = 3%nat
  ∧ Server.count_difficulty "Advanced" items = 4%nat.

(** A shape-valid answer of the model with only two items. *)
Definition two_items : Value :=
  VObj [("questions",
         VArr [VObj [("question", VStr "Describe a triage decision.");
                     ("difficulty", VStr "Easy")];
               VObj [("question", VStr "How do you hand over a ward?");
                     ("difficulty", VStr "Advanced")]])].

Definition nurse_request : Server.Request :=
  {| Server.method := "POST";
     Server.query_job_role := VUndefined;
     Server.body := VObj [("job_role", VStr "Nurse")] |}.

(** *** The de-duplicator *)

(** Cache entries and sent requests correspond one to one: the handle cached
    for a job role is the position of its request. *)
Definition cache_inv (st : Generation.State) : Prop :=
  length (Generation.promises st) = length (Generation.requests st)
  ∧ ∀ r p, Generation.questionPromiseCache st !! r = Some p
           ↔ Generation.requests st !! p = Some r.

(** *** The session walk *)

Section Walker.

Import Interview.

Context (interviewId applicantId : Z) (questions : list Question).
Context (net : nat → bool).

(** The body posted for question [q] with transcript [t]. *)
Definition answer_of (q : Z) (t : string) : AnswerData :=
  {| interview_id := interviewId; question_id := q;
     applicant_id := applicantId; answer := t |}.

(** The request of the status transition gate. *)
Definition the_patch : ApiCall := PatchApplicant applicantId "Completed".

Definition save_error : string := "Error saving answer, please try again.".

(** The parts of the page that only a click on "next" can touch. *)
Definition same_page (w w' : World) : Prop :=
  store w' = store w ∧ calls w' = calls w ∧ alerts w' = alerts w
  ∧ browserSupportsSpeechRecognition (speech w')
      = browserSupportsSpeechRecognition (speech w)
  ∧ isMicrophoneAvailable (speech w') = isMicrophoneAvailable (speech w).

Definition not_next (e : Event) : bool :=
  match e with ClickNext => false | _ => true end.

(** Neither a click on "next" nor speech: at most the recording buttons. *)
Definition silent (e : Event) : bool :=
  match e with ClickNext | Speak _ => false | _ => true end.

(** The request at position [n] directly follows the accepted submission of
    an answer given on the rendered last question. *)
Definition after_last_answer (cs : list ApiCall) (n : nat) : Prop :=
  ∃ m qid t,
    n = S m ∧ cs !! m = Some (PostAnswer (answer_of qid t)) ∧ net m = true
    ∧ isLastQuestion questions qid = true
    ∧ is_Some (currentQuestion questions qid).

(** Every status update in the log sets this applicant to Completed and
    directly follows such a submission. *)
Definition gate_justified (cs : list ApiCall) : Prop :=
  ∀ n a s, cs !! n = Some (PatchApplicant a s) →
    a = applicantId ∧ s = "Completed" ∧ after_last_answer cs n.

(** Once the gate has fired the page is on the completion screen. *)
Definition gate_inv (w : World) : Prop :=
  gate_justified (calls w)
  ∧ (gate_calls w = 0%nat ∨ (gate_calls w = 1%nat ∧ route w = Complete)).

(** The events of a walk: per question, what the applicant does on its
    screen, then the click on "next". *)
Definition walk_events (rounds : list (list Event)) : list Event :=
  concat ((λ r, r ++ [ClickNext])%list <$> rounds).

(** One posted body per question, in the order of the list. *)
Definition answers_to (qs : list Question) (rows : list AnswerData) : Prop :=
  Forall2 (λ q d, ∃ t, d = answer_of (id q) t) qs rows.

(** The rows of the answer table made from posted bodies. *)
Definition stored (rows : list AnswerData) : list (AnswerData * string) :=
  (λ d, (d, USERNAME)) <$> rows.

(** The page after [k] of the [length questions] advances, when every
    request is accepted. *)
Definition progress (s0 : Store) (k : nat) (w : World) : Prop :=
  ∃ rows,
    answers_to (take k questions) rows
    ∧ calls w =
        ((PostAnswer <$> rows)
           ++ (if bool_decide (k = length questions) then [the_patch] else []))%list
    ∧ applicant_answer (store w) = (applicant_answer s0 ++ stored rows)%list
    ∧ applicant (store w) =
        (if bool_decide (k = length questions)
         then alter (λ _, {| interview_status := "Completed";
                             username := USERNAME |})
                    applicantId (applicant s0)
         else applicant s0)
    ∧ alerts w = []
    ∧ submitting (comp w) = false
    ∧ browserSupportsSpeechRecognition (speech w) = true
    ∧ isMicrophoneAvailable (speech w) = true
    ∧ route w =
        match questions !! k with
        | Some q => QuestionRoute (id q)
        | None => Complete
        end.

End Walker.

End Props.

Import Props.

(** ** The scenario of the specification: two questions, one applicant *)

Module Scenario.

Import Interview.

Definition Q1 : Question :=
  {| id := 11; question := "Tell me about yourself"; difficulty := "Easy" |}.

Definition Q2 : Question :=
  {| id := 12; question := "Why this role?"; difficulty := "Intermediate" |}.

Definition the_interview : Z := 3.
Definition the_applicant : Z := 7.

Definition not_started : Store :=
  {| applicant_answer := [];
     applicant :=
       {[ the_applicant :=
            {| interview_status := "Not Started"; username := USERNAME |} ]} |}.

Definition accepting : nat → bool := λ _, true.
Definition refusing : nat → bool := λ _, false.
Definition refusing_second : nat → bool := λ n, Nat.eqb n 0.

(** Start, record "I am a developer" for the first question, pause. *)
Definition first_answer : list Event :=
  [ClickStart; Speak "I am a developer"; ClickPause].

(** The page when the second question has just come up, the first answer
    having been sent as request 0. *)
Definition on_second_question (net : nat → bool) : World :=
  run the_interview the_applicant [Q1; Q2] net
    (ClickStartInterview :: first_answer ++ [ClickNext])%list
    (opened not_started true true).

End Scenario.

Import Scenario.

(** ** The session in the browser: history and page loads *)

Module History.

Import Interview.

(** The page shown, and the entries of the session history behind and ahead
    of it. *)
Record Browser := {
  page : World;
  past : list Route;
  future : list Route
}.

Definition route_eqb (a b : Route) : bool :=
  match a, b with
  | Welcome, Welcome | Complete, Complete => true
  | QuestionRoute x, QuestionRoute y => x =? y
  | _, _ => false
  end.

(** The router shows route [r] after a step in the history. Between two
    question routes [InterviewQuestion] stays mounted and only its
    parameter changes; coming from another screen it is mounted anew. *)
Definition arrive (r : Route) (w : World) : World :=
  match route w with
  | QuestionRoute _ => rerender w (with_route r w)
  | _ =>
      match r with
      | QuestionRoute _ =>
          exec question_effect (with_comp mounted (with_route r w))
      | _ => with_route r w
      end
  end.

(** The application is loaded at route [r] (a typed or followed URL): every
    component starts from its initial state and the speech engine from
    silence; the store, and the logs kept of requests and alerts, go on. *)
Definition load (r : Route) (w : World) : World :=
  let fresh :=
    {| store := store w; calls := calls w; route := r; alerts := alerts w;
       speech :=
         {| transcript := ""; listening := false;
            browserSupportsSpeechRecognition :=
              browserSupportsSpeechRecognition (speech w);
            isMicrophoneAvailable := isMicrophoneAvailable (speech w) |};
       comp := mounted |} in
  match r with
  | QuestionRoute _ => exec question_effect fresh
  | _ => fresh
  end.

(** What the applicant can do in the browser: use the page, step back or
    forward in the history, or load a URL of the session. *)
Inductive Action :=
| Do (e : Event)
| Back
| Forward
| Visit (r : Route).

Definition is_navigation (a : Action) : bool :=
  match a with Do _ => false | _ => true end.

(** How many of the actions are navigations by the browser. *)
Definition navigations (actions : list Action) : nat :=
  length (List.filter is_navigation actions).

Section Session.

Variables (interviewId applicantId : Z) (questions : list Question).
Variable net : nat → bool.

(** [navigate] of the page adds an entry when it changes the route and
    drops the entries ahead. *)
Definition act (b : Browser) (a : Action) : Browser :=
  match a with
  | Do e =>
      let w' := handle interviewId applicantId questions net (page b) e in
      if route_eqb (route w') (route (page b)) then
        {| page := w'; past := past b; future := future b |}
      else
        {| page := w'; past := route (page b) :: past b; future := [] |}
  | Back =>
      match past b with
      | r :: rest =>
          {| page := arrive r (page b); past := rest;
             future := route (page b) :: future b |}
      | [] => b
      end
  | Forward =>
      match future b with
      | r :: rest =>
          {| page := arrive r (page b); past := route (page b) :: past b;
             future := rest |}
      | [] => b
      end
  | Visit r =>
      {| page := load r (page b); past := route (page b) :: past b;
         future := [] |}
  end.

Definition browse (actions : list Action) (b : Browser) : Browser :=
  foldl act b actions.

End Session.

(** The browser on the freshly opened welcome screen. *)
Definition opened_browser (s : Store) (supported microphone : bool)
  : Browser :=
  {| page := opened s supported microphone; past := []; future := [] |}.

(** Each status update is accounted for: there are at most as many as
    navigations so far, or one more while the completion screen is shown. *)
Definition gate_bounded (n : nat) (w : World) : Prop :=
  (gate_calls w ≤ n)%nat
  ∨ ((gate_calls w ≤ S n)%nat ∧ route w = Complete).

End History.

(** ** Questions.jsx: the [Questions] component *)

Module QuestionsPage.

(** A row of the question table, as [getQuestionsByInterview] returns it. *)
Record QuestionRow := {
  id : Z;
  interview_id : Z;
  question : string;
  difficulty : string;
  username : string
}.

(** Modelled from the spec: the REST resource store (section 6: create,
    filtered read by owning id, delete; section 3: ids are assigned by the
    store, order is creation order). [sent] counts the requests received. *)
Record Backend := {
  table : list QuestionRow;
  next_id : Z;
  sent : nat
}.

(** The [useState] cells of the component, the alerts shown, and the
    promise a running [generateAIQuestions] is suspended on. *)
Record Ui := {
  questions : list QuestionRow;
  aiQuestions : list Value;
  loading : bool;
  error : option string;
  generating : bool;
  generationError : option string;
  alerts : list string;
  awaiting : option nat
}.

Record Page := {
  backend : Backend;
  ui : Ui;
  gen : Generation.State      (* the module-level promise cache *)
}.

Definition mounted : Ui :=
  {| questions := []; aiQuestions := []; loading := true; error := None;
     generating := false; generationError := None; alerts := [];
     awaiting := None |}.

Definition setQuestions (qs : list QuestionRow) (u : Ui) : Ui :=
  {| questions := qs; aiQuestions := aiQuestions u; loading := loading u;
     error := error u; generating := generating u;
     generationError := generationError u; alerts := alerts u;
     awaiting := awaiting u |}.
Definition setAiQuestions (a : list Value) (u : Ui) : Ui :=
  {| questions := questions u; aiQuestions := a; loading := loading u;
     error := error u; generating := generating u;
     generationError := generationError u; alerts := alerts u;
     awaiting := awaiting u |}.
Definition setLoading (b : bool) (u : Ui) : Ui :=
  {| questions := questions u; aiQuestions := aiQuestions u; loading := b;
     error := error u; generating := generating u;
     generationError := generationError u; alerts := alerts u;
     awaiting := awaiting u |}.
Definition setError (e : option string) (u : Ui) : Ui :=
  {| questions := questions u; aiQuestions := aiQuestions u;
     loading := loading u; error := e; generating := generating u;
     generationError := generationError u; alerts := alerts u;
     awaiting := awaiting u |}.
Definition setGenerating (b : bool) (u : Ui) : Ui :=
  {| questions := questions u; aiQuestions := aiQuestions u;
     loading := loading u; error := error u; generating := b;
     generationError := generationError u; alerts := alerts u;
     awaiting := awaiting u |}.
Definition setGenerationError (e : option string) (u : Ui) : Ui :=
  {| questions := questions u; aiQuestions := aiQuestions u;
     loading := loading u; error := error u; generating := generating u;
     generationError := e; alerts := alerts u; awaiting := awaiting u |}.
Definition alert (msg : string) (u : Ui) : Ui :=
  {| questions := questions u; aiQuestions := aiQuestions u;
     loading := loading u; error := error u; generating := generating u;
     generationError := generationError u; alerts := (alerts u ++ [msg])%list;
     awaiting := awaiting u |}.
Definition suspend_on (p : option nat) (u : Ui) : Ui :=
  {| questions := questions u; aiQuestions := aiQuestions u;
     loading := loading u; error := error u; generating := generating u;
     generationError := generationError u; alerts := alerts u;
     awaiting := p |}.

(** [q.question !== questionText] on a suggestion. *)
Definition other_text (questionText : string) (q : Value) : bool :=
  match Server.optional_member q "question" with
  | VStr s => negb (String.eqb s questionText)
  | _ => true
  end.

(** The items of the array a generation promise fulfils with. *)
Definition items_of (v : Value) : list Value :=
  match v with VArr items => items | _ => [] end.

Section Component.

(** Whether the [n]-th request to the store comes back with [response.ok]. *)
Variable net : nat → bool.

(** [location.state.interviewId] (a defined id) and
    [location.state?.interviewJobRole] ([None] when undefined). *)
Variables (interviewId : Z) (interviewJobRole : option string).

(** [apiRequest('/question', 'POST', question)] *)
Definition createQuestion (text diff : string) (b : Backend)
  : Result unit * Backend :=
  if net (sent b) then
    (Ok tt,
     {| table := (table b ++ [{| id := next_id b; interview_id := interviewId;
                                 question := text; difficulty := diff;
                                 username := Interview.USERNAME |}])%list;
        next_id := next_id b + 1;
        sent := S (sent b) |})
  else
    (Throw "HTTP error!",
     {| table := table b; next_id := next_id b; sent := S (sent b) |}).

(** [apiRequest('/question', 'GET', null, {interview_id: `eq.${id}`})] *)
Definition getQuestionsByInterview (b : Backend)
  : Result (list QuestionRow) * Backend :=
  let b' := {| table := table b; next_id := next_id b; sent := S (sent b) |} in
  if net (sent b) then
    (Ok (List.filter (λ r, interview_id r =? interviewId) (table b)), b')
  else (Throw "HTTP error!", b').

(** [apiRequest('/question', 'DELETE', null, {id: `eq.${id}`})] *)
Definition deleteQuestion (questionId : Z) (b : Backend)
  : Result unit * Backend :=
  if net (sent b) then
    (Ok tt,
     {| table := List.filter (λ r, negb (id r =? questionId)) (table b);
        next_id := next_id b; sent := S (sent b) |})
  else
    (Throw "HTTP error!",
     {| table := table b; next_id := next_id b; sent := S (sent b) |}).

Definition with_backend (b : Backend) (p : Page) : Page :=
  {| backend := b; ui := ui p; gen := gen p |}.
Definition with_ui (f : Ui → Ui) (p : Page) : Page :=
  {| backend := backend p; ui := f (ui p); gen := gen p |}.
Definition with_gen (g : Generation.State) (p : Page) : Page :=
  {| backend := backend p; ui := ui p; gen := g |}.

(** The effect that loads the questions when the component mounts. *)
Definition fetchQuestions (p : Page) : Page :=
  if interviewId =? 0 then
    with_ui (λ u, setLoading false (setError (Some "Interview ID is missing") u)) p
  else
    match getQuestionsByInterview (backend p) with
    | (Ok data, b) =>
        with_ui (λ u, setLoading false (setQuestions data u)) (with_backend b p)
    | (Throw _, b) =>
        with_ui (λ u, setLoading false
                   (setError (Some "Failed to load questions. Please try again.") u))
                (with_backend b p)
    end.

(** [!interviewJobRole] *)
Definition no_job_role : bool :=
  match interviewJobRole with
  | Some r => String.eqb r ""
  | None => true
  end.

(** The rest of [generateAIQuestions] once the awaited promise has settled;
    while it is pending the call stays suspended. *)
Definition generateAIQuestions_resume (p : Page) : Page :=
  match awaiting (ui p) with
  | Some h =>
      match Generation.promises (gen p) !! h with
      | Some (Generation.Fulfilled v) =>
          with_ui (λ u, suspend_on None
                     (setGenerating false (setAiQuestions (items_of v) u))) p
      | Some (Generation.Rejected m) =>
          with_ui (λ u, suspend_on None
                     (setGenerating false
                        (setGenerationError
                           (Some (if String.eqb m "" then
                                    "Failed to generate questions" else m))
                           u))) p
      | _ => p
      end
  | None => p
  end.

(** [generateAIQuestions], up to and including the [await] when the promise
    is already settled. [Map.get] after [Map.set] never yields undefined, so
    the branch without a handle leaves the call suspended for good. *)
Definition generateAIQuestions (p : Page) : Page :=
  if no_job_role then
    with_ui (setGenerationError
               (Some "Please add a job role to the interview first")) p
  else
    let '(h, g) :=
      Generation.getQuestionPromise (default "" interviewJobRole) (gen p) in
    generateAIQuestions_resume
      (with_gen g
         (with_ui (λ u, suspend_on h
                     (setGenerationError None (setGenerating true u))) p)).

(** The generation server answers: the promise settles and a suspended
    [generateAIQuestions] goes on. *)
Definition settle (h : nat) (res : option Generation.HttpResponse) (p : Page)
  : Page :=
  generateAIQuestions_resume (with_gen (Generation.settle h res (gen p)) p).

Definition addAIQuestion (questionText difficulty' : string) (p : Page)
  : Page :=
  match createQuestion questionText difficulty' (backend p) with
  | (Ok _, b1) =>
      match getQuestionsByInterview b1 with
      | (Ok updatedQuestions, b2) =>
          with_ui (λ u,
                     setAiQuestions
                       (List.filter (other_text questionText) (aiQuestions u))
                       (setQuestions updatedQuestions u))
                  (with_backend b2 p)
      | (Throw _, b2) =>
          with_ui (alert "Failed to add question. Please try again.")
                  (with_backend b2 p)
      end
  | (Throw _, b1) =>
      with_ui (alert "Failed to add question. Please try again.")
              (with_backend b1 p)
  end.

(** [confirmed] is the answer to [window.confirm]. *)
Definition handleDeleteQuestion (questionId : Z) (confirmed : bool) (p : Page)
  : Page :=
  if confirmed then
    match deleteQuestion questionId (backend p) with
    | (Ok _, b) =>
        with_ui (λ u,
                   setQuestions
                     (List.filter (λ q, negb (id q =? questionId))
                                  (questions (ui p))) u)
                (with_backend b p)
    | (Throw _, b) =>
        with_ui (alert "Failed to delete question. Please try again.")
                (with_backend b p)
    end
  else p.

(** What can happen on the page. *)
Inductive Op :=
| Mount
| Generate
| Settle (h : nat) (res : option Generation.HttpResponse)
| Add (questionText difficulty' : string)
| Delete (questionId : Z) (confirmed : bool).

(** One operation, its handler run from start to completion with no
    other handler of the page in between. The generate button is disabled
    while generating or without a job role. *)
Definition apply_op (p : Page) (o : Op) : Page :=
  match o with
  | Mount => fetchQuestions p
  | Generate => if generating (ui p) || no_job_role then p
                else generateAIQuestions p
  | Settle h res => settle h res p
  | Add t d => addAIQuestion t d p
  | Delete q c => handleDeleteQuestion q c p
  end.

Definition run (ops : list Op) (p : Page) : Page := foldl apply_op p ops.

(** The rows of the store that belong to the interview of the page. *)
Definition rows_of_interview (b : Backend) : list QuestionRow :=
  List.filter (λ r, interview_id r =? interviewId) (table b).

End Component.

End QuestionsPage.

(** ** app.js: how [apiRequest] builds a request *)

Module AppJs.

(** [JWT_TOKEN] of app.js. *)
Definition JWT_TOKEN : string := "".

(** The [options] handed to [fetch]; [body] is the object that is
    serialised, [None] when no body is sent. *)
Record Options := {
  method : string;
  headers : list (string * string);
  body : option (list (string * Value))
}.

(** [obj[key] = v] on a plain object: an own property keeps its place, a
    new one goes last. *)
Fixpoint assign (key : string) (v : Value) (fields : list (string * Value))
  : list (string * Value) :=
  match fields with
  | [] => [(key, v)]
  | (k, x) :: rest =>
      if String.eqb k key then (k, v) :: rest
      else (k, x) :: assign key v rest
  end.

(** The options [apiRequest] builds for a method and a body that is an
    object or [null]. *)
Definition request_options (method' : string)
    (body' : option (list (string * Value))) : Options :=
  {| method := method';
     headers :=
       ([("Content-Type", "application/json");
         ("Authorization", String.append "Bearer " JWT_TOKEN)]
        ++ (if String.eqb method' "POST" || String.eqb method' "PATCH"
            then [("Prefer", "return=representation")] else []))%list;
     body :=
       match body' with
       | Some fields =>
           Some (assign "username" (VStr Interview.USERNAME) fields)
       | None => None
       end |}.

End AppJs.

(** ** TakeInterviewLayout: loading what the interview screens share *)

Module Layout.

(** The [useState] cells of the layout. *)
Record State := {
  interview : Value;
  applicant : Value;
  questions : Value;
  loading : bool;
  error : Value
}.

Definition initial : State :=
  {| interview := VNull; applicant := VNull; questions := VArr [];
     loading := true; error := VNull |}.

(** [v == null] *)
Definition nullish (v : Value) : bool :=
  match v with VUndefined | VNull => true | _ => false end.

(** [v[0]]: the first element of an array, the first character of a
    string, the member ["0"] of an object; throws on null and undefined. *)
Definition first_of (v : Value) : Result Value :=
  match v with
  | VUndefined | VNull => Throw "TypeError"
  | VArr (x :: _) => Ok x
  | VObj fields => Ok (get "0" fields)
  | VStr s => Ok (match s with String c _ => VStr (String c "") | _ => VUndefined end)
  | _ => Ok VUndefined
  end.

(** [v.key] on a value about to be displayed: throws on null and
    undefined. *)
Definition member (v : Value) (key : string) : Result Value :=
  if nullish v then Throw "TypeError" else Ok (Server.optional_member v key).

(** [fetchData]; [all] is what [await Promise.all([...])] yields: the three
    responses, or the rejection of the first request to fail. *)
Definition fetchData (all : Result (Value * Value * Value)) (st : State)
  : State :=
  let st1 := {| interview := interview st; applicant := applicant st;
                questions := questions st; loading := true;
                error := VNull |} in
  let st2 :=
    match all with
    | Ok (interviewResponse, applicantResponse, questionsResponse) =>
        match first_of interviewResponse, first_of applicantResponse with
        | Ok interviewData, Ok applicantData =>
            {| interview := interviewData; applicant := applicantData;
               questions := if truthy questionsResponse
                            then questionsResponse else VArr [];
               loading := loading st1; error := error st1 |}
        | Throw m, _ | _, Throw m =>
            {| interview := interview st1; applicant := applicant st1;
               questions := questions st1; loading := loading st1;
               error := VStr m |}
        end
    | Throw m =>
        {| interview := interview st1; applicant := applicant st1;
           questions := questions st1; loading := loading st1;
           error := VStr m |}
    end in
  {| interview := interview st2; applicant := applicant st2;
     questions := questions st2; loading := false; error := error st2 |}.

(** The effect on mount; [ids] tells whether both route parameters are
    there. *)
Definition mount (ids : bool) (all : Result (Value * Value * Value))
    (st : State) : State :=
  if ids then fetchData all st
  else {| interview := interview st; applicant := applicant st;
          questions := questions st; loading := false;
          error := VStr "Missing interview / applicant ID" |}.

(** What the layout returns: the spinner, the error box, or the header
    (of which the three displayed members are kept) over the outlet with
    its context. *)
Inductive Screen :=
| Loading
| ErrorBox (message : Value)
| Outlet (title firstname surname : Value) (context : Value * Value * Value).

Definition render (st : State) : Result Screen :=
  if loading st then Ok Loading
  else if truthy (error st) then Ok (ErrorBox (error st))
  else
    match member (interview st) "title",
          member (applicant st) "firstname",
          member (applicant st) "surname" with
    | Ok t, Ok f, Ok s =>
        Ok (Outlet t f s (interview st, applicant st, questions st))
    | Throw m, _, _ | _, Throw m, _ | _, _, Throw m => Throw m
    end.

End Layout.

(** ** server.js: the application in front of the handler *)

Module ServerApp.

(** What [cors(...)] (server.js, lines 12 to 16) sends for a request of
    method OPTIONS: status 204 and no body. *)
Definition no_content : Server.Response :=
  {| Server.status := 204; Server.json := VUndefined |}.

(** The response of the application to a request for
    [/api/generate-question]: the cors middleware answers OPTIONS itself
    and passes every other request on to the handler. *)
Definition respond (invoke : string → option Value) (req : Server.Request)
  : Server.Response :=
  if String.eqb (Server.method req) "OPTIONS" then no_content
  else Server.generate_question invoke req.

End ServerApp.

(** ** Questions.jsx: a delete suspended on its request *)

Module QuestionsAsync.

Import QuestionsPage.

(** A [handleDeleteQuestion] suspended at its [await]: the id, the list
    [questions] of the render in which its button was clicked, and the
    answer of the store, already on its way. *)
Record PendingDelete := {
  deleted_id : Z;
  captured : list QuestionRow;
  accepted : bool
}.

Section Split.

Variable net : nat → bool.

(** The confirmed click: the request is sent and the store handles it. *)
Definition delete_click (questionId : Z) (p : Page) : PendingDelete * Page :=
  match deleteQuestion net questionId (backend p) with
  | (Ok _, b) =>
      ({| deleted_id := questionId; captured := questions (ui p);
          accepted := true |}, with_backend b p)
  | (Throw _, b) =>
      ({| deleted_id := questionId; captured := questions (ui p);
          accepted := false |}, with_backend b p)
  end.

(** The response arrives and the handler goes on, with the list it closed
    over. *)
Definition delete_resume (d : PendingDelete) (p : Page) : Page :=
  if accepted d then
    with_ui (setQuestions
               (List.filter (λ q, negb (id q =? deleted_id d)) (captured d)))
            p
  else with_ui (alert "Failed to delete question. Please try again.") p.

(** Two confirmed deletes, the second clicked before the first response is
    back; the responses then arrive in the order of the clicks. *)
Definition overlapping_deletes (a b : Z) (p : Page) : Page :=
  let '(da, p1) := delete_click a p in
  let '(db, p2) := delete_click b p1 in
  delete_resume db (delete_resume da p2).

End Split.

End QuestionsAsync.

(** ** InterviewQuestion: a submission suspended on its requests *)

Module Submission.

Import Interview.

(** What a running [goToNextQuestion] closes over at the click: the
    question of its render, the answer read from the transcript of that
    render, and the number of its first request. *)
Record Closure := {
  questionId : Z;
  answerToSubmit : string;
  request : nat
}.

(** The request leaves the page. *)
Definition send (c : ApiCall) : M unit :=
  modify (λ w, with_calls (calls w ++ [c]) w).

Section Split.

Variables (interviewId applicantId : Z) (questions : list Question).
Variable net : nat → bool.

(** The response to the request numbered [n] comes back: the store has
    applied the write, or [apiRequest] throws. *)
Definition receive (c : ApiCall) (n : nat) : M unit :=
  λ w,
    if net n then (Ok tt, with_store (store_apply c (store w)) w)
    else (Throw "HTTP error!", w).

Definition answerData (k : Closure) : AnswerData :=
  {| interview_id := interviewId;
     question_id := questionId k;
     applicant_id := applicantId;
     answer := answerToSubmit k |}.

(** [goToNextQuestion] from the click to its first [await]. *)
Definition begin (q : Z) (w0 : World) : Closure * World :=
  let k := {| questionId := q;
              answerToSubmit := or_empty (transcript (speech w0));
              request := length (calls w0) |} in
  (k, exec (when (listening (speech w0)) handlePauseRecording ;;
            setSubmitting true ;;
            send (PostAnswer (answerData k))) w0).

(** The [finally] block and the navigation after it. *)
Definition leave (q : Z) : M unit :=
  setSubmitting false ;;
  if negb (isLastQuestion questions q) then
    match at_index questions (currentQuestionIndex questions q + 1) with
    | Some next => navigate (QuestionRoute (id next))
    | None => throw "TypeError"
    end
  else navigate Complete.

Definition on_error (q : Z) : M unit :=
  alert "Error saving answer, please try again." ;; leave q.

(** The handler goes on when the submission is answered. It ends here, or,
    on the last question, is suspended once more on the status update: the
    flag tells which. *)
Definition resume_submit (k : Closure) (w : World) : World * bool :=
  match receive (PostAnswer (answerData k)) (request k) w with
  | (Ok _, w1) =>
      let w2 := exec (setAnswers (questionId k) (answerToSubmit k)) w1 in
      if isLastQuestion questions (questionId k) then
        (exec (send (PatchApplicant applicantId "Completed")) w2, true)
      else (exec (leave (questionId k)) w2, false)
  | (Throw _, w1) => (exec (on_error (questionId k)) w1, false)
  end.

(** The handler goes on when the status update is answered. *)
Definition resume_status (k : Closure) (w : World) : World :=
  match receive (PatchApplicant applicantId "Completed") (S (request k)) w with
  | (Ok _, w1) => exec (leave (questionId k)) w1
  | (Throw _, w1) => exec (on_error (questionId k)) w1
  end.

(** A click on the navigation button of the screen of [q], with what the
    applicant and the microphone do on the page meanwhile: [during] while
    the submission is awaited, [during'] while the status update is. The
    navigation button is disabled all that time, the recording buttons are
    not. React renders at each suspension and at the end. *)
Definition submission (q : Z) (during during' : list Event) (w : World)
  : World :=
  let '(k, w1) := begin q w in
  let w2 := run interviewId applicantId questions net during (rerender w w1) in
  let '(w3, suspended) := resume_submit k w2 in
  if suspended then
    let w4 :=
      run interviewId applicantId questions net during' (rerender w2 w3) in
    rerender w4 (resume_status k w4)
  else rerender w2 w3.

End Split.

(** Events that press neither the start nor the continue button, nor the
    navigation button. *)
Definition calm (e : Event) : bool :=
  match e with
  | ClickStart | ClickContinue | ClickNext => false
  | _ => true
  end.

(** The press that the recording button on screen after the click on
    "next" invites: start with an empty transcript, continue otherwise. *)
Definition resume_recording (w : World) : Event :=
  if truthy (VStr (transcript (speech w))) then ClickContinue else ClickStart.

End Submission.

(** ** Vocabulary for the behaviour of the remaining code *)

Module Behaviour.

(** Where the handler reads the role from: the query string of a GET, the
    body of a request of any other method. *)
Definition requested_role (req : Server.Request) : Value :=
  if String.eqb (Server.method req) "GET" then Server.query_job_role req
  else Server.optional_member (Server.body req) "job_role".

(** A role the handler goes on with: a string, and not the empty one. *)
Definition usable_role (v : Value) (s : string) : Prop :=
  v = VStr s ∧ s ≠ "".

(** What [fetch] hands to the client for a response of the server: [res.ok]
    holds for the statuses 200 to 299, [res.json()] is the body sent. *)
Definition over_the_wire (r : Server.Response) (body_text : option string)
  : Generation.HttpResponse :=
  {| Generation.ok := (200 <=? Server.status r) && (Server.status r <=? 299);
     Generation.text := body_text;
     Generation.json := Some (Server.json r) |}.

(** An item reduced to the two members of the schema. *)
Definition strip_item (v : Value) : Value :=
  VObj [("question", Server.optional_member v "question");
        ("difficulty", Server.optional_member v "difficulty")].

(** A model answer whose first item carries a member outside the schema. *)
Definition annotated_items : Value :=
  VObj [("questions",
         VArr [VObj [("question", VStr "Describe a triage decision.");
                     ("rationale", VStr "warm-up");
                     ("difficulty", VStr "Easy")];
               VObj [("difficulty", VStr "Advanced");
                     ("question", VStr "How do you hand over a ward?")]]);
        ("model", VStr "gpt-4o-mini")].

(** The caption of the navigation button of [InterviewQuestion]. *)
Definition next_button_caption (questions : list Interview.Question)
    (questionId : Z) (w : Interview.World) : string :=
  if Interview.submitting (Interview.comp w) then "Saving..."
  else if Interview.isLastQuestion questions questionId
       then "Complete Interview"
       else "Next Question".

(** The page after the interview was started from the opened page and the
    first [k] rounds of a walk were played. *)
Definition after_rounds (interviewId applicantId : Z)
    (questions : list Interview.Question) (net : nat → bool)
    (s0 : Interview.Store) (rounds : list (list Interview.Event)) (k : nat)
  : Interview.World :=
  Interview.run interviewId applicantId questions net
    (walk_events (take k rounds))
    (Interview.handle interviewId applicantId questions net
       (Interview.opened s0 true true) Interview.ClickStartInterview).

(** What a walk keeps after [k] advances even when requests fail: the
    route, the flags of the question screen, one posted answer per advance,
    at most one stored row per advance, and no status update before the
    last advance. *)
Definition reached (questions : list Interview.Question)
    (s0 : Interview.Store) (k : nat) (w : Interview.World) : Prop :=
  Interview.route w =
    match questions !! k with
    | Some q => Interview.QuestionRoute (Interview.id q)
    | None => Interview.Complete
    end
  ∧ Interview.submitting (Interview.comp w) = false
  ∧ Interview.browserSupportsSpeechRecognition (Interview.speech w) = true
  ∧ Interview.isMicrophoneAvailable (Interview.speech w) = true
  ∧ length (Interview.calls w) = (k + Interview.gate_calls w)%nat
  ∧ (length (Interview.applicant_answer (Interview.store w))
     ≤ length (Interview.applicant_answer s0) + k)%nat
  ∧ (Interview.gate_calls w = 0%nat ∨ k = length questions).

(** A page of interview 3 (role "Nurse") over a store that also holds a
    question of another interview; the two suggestions of [two_items] are
    on offer. *)
Definition sample_page : QuestionsPage.Page :=
  {| QuestionsPage.backend :=
       {| QuestionsPage.table :=
            [{| QuestionsPage.id := 1; QuestionsPage.interview_id := 3;
                QuestionsPage.question := "Tell me about yourself";
                QuestionsPage.difficulty := "Easy";
                QuestionsPage.username := Interview.USERNAME |};
             {| QuestionsPage.id := 2; QuestionsPage.interview_id := 4;
                QuestionsPage.question := "Why this role?";
                QuestionsPage.difficulty := "Easy";
                QuestionsPage.username := Interview.USERNAME |}];
          QuestionsPage.next_id := 3;
          QuestionsPage.sent := 0 |};
     QuestionsPage.ui :=
       QuestionsPage.setAiQuestions
         (QuestionsPage.items_of (Server.optional_member two_items "questions"))
         QuestionsPage.mounted;
     QuestionsPage.gen := Generation.init |}.

(** A page in step with a store holding two questions of interview 3. *)
Definition two_row_page : QuestionsPage.Page :=
  let rows :=
    [{| QuestionsPage.id := 1; QuestionsPage.interview_id := 3;
        QuestionsPage.question := "Tell me about yourself";
        QuestionsPage.difficulty := "Easy";
        QuestionsPage.username := Interview.USERNAME |};
     {| QuestionsPage.id := 2; QuestionsPage.interview_id := 3;
        QuestionsPage.question := "Why this role?";
        QuestionsPage.difficulty := "Easy";
        QuestionsPage.username := Interview.USERNAME |}] in
  {| QuestionsPage.backend :=
       {| QuestionsPage.table := rows; QuestionsPage.next_id := 3;
          QuestionsPage.sent := 0 |};
     QuestionsPage.ui := QuestionsPage.setQuestions rows QuestionsPage.mounted;
     QuestionsPage.gen := Generation.init |}.

(** The same page after a generation for "Nurse" failed on the network. *)
Definition page_after_failure : QuestionsPage.Page :=
  QuestionsPage.run accepting 3 (Some "Nurse")
    [QuestionsPage.Generate; QuestionsPage.Settle 0 None] sample_page.

(** The store accepts the first two requests and refuses the third. *)
Definition refusing_third : nat → bool := λ n, Nat.ltb n 2.

(** The store accepts the first request only. *)
Definition accepting_first : nat → bool := λ n, Nat.eqb n 0.

(** The page on the first question of the scenario, the first answer
    spoken and paused. *)
Definition on_first_question (net : nat → bool) : Interview.World :=
  Interview.run the_interview the_applicant [Q1; Q2] net
    (Interview.ClickStartInterview :: first_answer)
    (Interview.opened not_started true true).

End Behaviour.

Import Behaviour.

(** ** Schema validation *)

Lemma existsb_eqb_elem (s : string) (l : list string) :
  existsb (String.eqb s) l = true ↔ s ∈ l.
Proof.
  rewrite existsb_exists, list_elem_of_In. split.
  - intros (x & Hin & Heq). apply String.eqb_eq in Heq. by subst.
  - intros Hin. exists s. split; [done | apply String.eqb_refl].
Qed.

Lemma parse_items_Some (p : Value → option Value) (items out : list Value) :
  parse_items p items = Some out ↔ Forall2 (λ v v', p v = Some v') items out.
Proof.
  revert out. induction items as [|v rest IH]; intros out; simpl.
  - split.
    + intros [= <-]. constructor.
    + by inversion 1.
  - split.
    + destruct (p v) as [v'|] eqn:Hv; [|done].
      destruct (parse_items p rest) as [rest'|] eqn:Hrest; [|done].
      intros [= <-]. constructor; [done | by apply IH].
    + inversion 1 as [|? v' ? rest' Hv Hrest]; subst.
      apply IH in Hrest. by rewrite Hv, Hrest.
Qed.

Lemma safeParse_item (v v' : Value) :
  safeParse ItemSchema v = Some v' ↔
  ∃ fields q d,
    v = VObj fields ∧ get "question" fields = VStr q
    ∧ get "difficulty" fields = VStr d ∧ d ∈ difficulties
    ∧ v' = VObj [("question", VStr q); ("difficulty", VStr d)].
Proof.
  split.
  - destruct v as [| | | | |?|fields]; try done. cbn -[existsb].
    destruct (get "question" fields) as [| | | |q| |] eqn:Hq; try done.
    destruct (get "difficulty" fields) as [| | | |d| |] eqn:Hd; try done.
    destruct (existsb (String.eqb d) difficulties) eqn:Hex; [|done].
    intros [= <-]. exists fields, q, d. repeat split; try done.
    by apply existsb_eqb_elem.
  - intros (fields & q & d & -> & Hq & Hd & Hin & ->). cbn -[existsb].
    rewrite Hq, Hd. apply existsb_eqb_elem in Hin. by rewrite Hin.
Qed.

Lemma safeParse_item_valid (v : Value) :
  is_Some (safeParse ItemSchema v) ↔ valid_item v.
Proof.
  split.
  - intros [v' Hv]. apply safeParse_item in Hv as (f & q & d & ? & ? & ? & ? & _).
    by exists f, q, d.
  - intros (f & q & d & ? & ? & ? & ?). eexists. apply safeParse_item.
    by exists f, q, d.
Qed.

Lemma Forall2_Forall_l_some (items : list Value) :
  Forall valid_item items →
  ∃ out, Forall2 (λ v v', safeParse ItemSchema v = Some v') items out.
Proof.
  induction 1 as [|v rest Hv _ [out IH]].
  - exists []. constructor.
  - apply safeParse_item_valid in Hv as [v' Hv]. exists (v' :: out).
    by constructor.
Qed.

Lemma Forall2_parsed_valid (items out : list Value) :
  Forall2 (λ v v', safeParse ItemSchema v = Some v') items out →
  Forall valid_item items.
Proof.
  induction 1 as [|v v' rest rest' Hv _ IH]; constructor; [|done].
  apply safeParse_item_valid. by exists v'.
Qed.

(** What an accepted value looks like, together with what comes out. *)
Lemma safeParse_QuestionSchema (v v' : Value) :
  safeParse QuestionSchema v = Some v' ↔
  ∃ fields items out,
    v = VObj fields ∧ get "questions" fields = VArr items ∧ items ≠ []
    ∧ Forall2 (λ x x', safeParse ItemSchema x = Some x') items out
    ∧ v' = VObj [("questions", VArr out)].
Proof.
  split.
  - destruct v as [| | | | |?|fields]; try done.
    cbn [safeParse QuestionSchema fmap option_fmap option_map].
    destruct (get "questions" fields) as [| | | | |items|] eqn:Hq; try done.
    fold ItemSchema. destruct items as [|x rest]; [done|].
    cbn [length Nat.eqb andb].
    destruct (parse_items (safeParse ItemSchema) (x :: rest)) as [out|] eqn:Hp;
      [|done].
    cbn. intros [= <-]. exists fields, (x :: rest), out.
    repeat split; try done. by apply parse_items_Some.
  - intros (fields & items & out & -> & Hq & Hne & Hall & ->).
    cbn [safeParse QuestionSchema fmap option_fmap option_map].
    rewrite Hq. fold ItemSchema.
    destruct items as [|x rest]; [done|]. cbn [length Nat.eqb andb].
    apply parse_items_Some in Hall. by rewrite Hall.
Qed.

(** C3: the validator accepts a value exactly when it carries a non-empty
    list whose every element has a string [question] and a [difficulty]
    among Easy, Intermediate, Advanced; everything else yields no data at
    all; the number of items plays no role, a shape-valid list of two is
    accepted and handed on by [fetchAIQuestions]. *)
Theorem schema_validator_accepts_iff_shape :
  (∀ v, is_Some (safeParse QuestionSchema v) ↔ valid_suggestions v)
  ∧ (∀ v, safeParse QuestionSchema v = None ↔ ¬ valid_suggestions v)
  ∧ Generation.fetchAIQuestions_then
      {| Generation.ok := true; Generation.text := None;
         Generation.json := Some two_items |}
    = Ok (Server.optional_member two_items "questions").
Proof.
  assert (Hiff : ∀ v, is_Some (safeParse QuestionSchema v) ↔ valid_suggestions v).
  { intros v. split.
    - intros [v' Hv].
      apply safeParse_QuestionSchema in Hv
        as (fields & items & out & -> & Hq & Hne & Hall & _).
      exists fields, items. repeat split; try done.
      by apply Forall2_parsed_valid in Hall.
    - intros (fields & items & -> & Hq & Hne & Hall).
      destruct (Forall2_Forall_l_some items Hall) as [out Hout].
      eexists. apply safeParse_QuestionSchema.
      by exists fields, items, out. }
  split; [exact Hiff|]. split.
  - intros v. rewrite <- Hiff, <- not_eq_None_Some. split.
    + intros H Hn. by apply Hn.
    + intros H. destruct (safeParse QuestionSchema v); [|done].
      exfalso. by apply H.
  - reflexivity.
Qed.

(** ** The generation endpoint *)

(** C9 (counterexample): the model answers the Nurse request with two
    shape-valid items; the endpoint responds 200 with those two items, not
    with ten split 3/3/4. *)
Lemma generate_question_two_items_succeeds :
  let r := Server.generate_question (λ _, Some two_items) nurse_request in
  Server.status r = 200
  ∧ length (Server.questions_of r) = 2%nat
  ∧ ¬ fixed_shape (Server.questions_of r).
Proof.
  split; [reflexivity|]. split; [reflexivity|].
  intros [Hlen _]. vm_compute in Hlen. discriminate Hlen.
Qed.

(** C9 (amended): every 200 response of the endpoint carries, under
    [questions], a non-empty list whose items are exactly a string
    [question] and a [difficulty] among the three levels; how many items
    there are, and how they split over the levels, is asked of the model in
    the prompt and not checked. *)
Theorem generate_question_success_shape
    (invoke : string → option Value) (req : Server.Request) :
  Server.status (Server.generate_question invoke req) = 200 →
  ∃ items,
    Server.json (Server.generate_question invoke req)
      = VObj [("questions", VArr items)]
    ∧ items ≠ [] ∧ Forall clean_item items.
Proof.
  unfold Server.generate_question.
  set (rd := if String.eqb _ _ then _ else _).
  destruct (negb (truthy rd) || negb (is_string rd)); [done|].
  destruct (invoke (string_of rd)) as [result|]; [|done].
  destruct (safeParse QuestionSchema result) as [data|] eqn:Hp; [|done].
  intros _. cbn [Server.json].
  apply safeParse_QuestionSchema in Hp
    as (fields & items & out & -> & Hq & Hne & Hall & ->).
  exists out. split; [done|]. split.
  - intros ->. inversion Hall. by subst.
  - clear Hq Hne. induction Hall as [|v v' rest rest' Hv _ IH]; constructor.
    + apply safeParse_item in Hv as (f & q & d & _ & _ & _ & Hd & ->).
      by exists q, d.
    + exact IH.
Qed.

Lemma generate_question_success_shape_witness :
  Server.status (Server.generate_question (λ _, Some two_items) nurse_request)
    = 200
  ∧ ∃ items,
      Server.json (Server.generate_question (λ _, Some two_items) nurse_request)
        = VObj [("questions", VArr items)]
      ∧ items ≠ [] ∧ Forall clean_item items.
Proof.
  split; [reflexivity|].
  apply (generate_question_success_shape (λ _, Some two_items) nurse_request).
  reflexivity.
Defined.

(** ** The request de-duplicator *)

Section Dedup.

Import Generation.

Lemma cache_inv_init : cache_inv init.
Proof. split; [done|]. intros r p. cbn. by rewrite lookup_empty. Qed.

Lemma getQuestionPromise_hit (r : string) (p : nat) (st : State) :
  questionPromiseCache st !! r = Some p →
  getQuestionPromise r st = (Some p, st).
Proof. intros H. unfold getQuestionPromise. rewrite H. cbn. by rewrite H. Qed.

Lemma getQuestionPromise_miss (r : string) (st : State) :
  questionPromiseCache st !! r = None →
  getQuestionPromise r st =
    (Some (length (promises st)),
     {| questionPromiseCache :=
          <[r := length (promises st)]> (questionPromiseCache st);
        promises := promises st ++ [Pending];
        requests := requests st ++ [r] |}).
Proof.
  intros H. unfold getQuestionPromise. rewrite H. cbn.
  by rewrite lookup_insert_eq.
Qed.

Lemma cache_inv_call (r : string) (st : State) :
  cache_inv st → cache_inv (snd (getQuestionPromise r st)).
Proof.
  intros [Hlen Hinv].
  destruct (questionPromiseCache st !! r) as [p|] eqn:Hr.
  - by rewrite (getQuestionPromise_hit r p st Hr).
  - rewrite (getQuestionPromise_miss r st Hr). split; cbn.
    + rewrite !length_app. cbn. lia.
    + intros r' p'. rewrite Hlen. destruct (decide (r = r')) as [<-|Hne].
      * rewrite lookup_insert_eq. split.
        -- intros [= <-]. by rewrite lookup_app_r, Nat.sub_diag.
        -- intros Hp'. destruct (decide (p' < length (requests st))%nat).
           ++ rewrite lookup_app_l in Hp' by done.
              apply Hinv in Hp'. congruence.
           ++ f_equal. apply lookup_lt_Some in Hp'.
              rewrite length_app in Hp'. cbn in Hp'. lia.
      * rewrite lookup_insert_ne by done. rewrite Hinv. split.
        -- intros Hp'. rewrite lookup_app_l; [done|].
           by apply lookup_lt_Some in Hp'.
        -- intros Hp'. destruct (decide (p' < length (requests st))%nat).
           ++ by rewrite lookup_app_l in Hp'.
           ++ rewrite lookup_app_r in Hp' by lia.
              apply list_lookup_singleton_Some in Hp' as [_ ?]. congruence.
Qed.

Lemma settle_cache (p : nat) (res : option HttpResponse) (st : State) :
  questionPromiseCache (settle p res st) = questionPromiseCache st
  ∧ requests (settle p res st) = requests st
  ∧ length (promises (settle p res st)) = length (promises st).
Proof.
  unfold settle. destruct (promises st !! p) as [[| |]|]; try done.
  cbn. by rewrite length_insert.
Qed.

Lemma cache_inv_step (st : State) (e : Event) :
  cache_inv st → cache_inv (step st e).
Proof.
  destruct e as [r|p res]; cbn.
  - apply cache_inv_call.
  - intros [Hlen Hinv]. destruct (settle_cache p res st) as (Hc & Hr & Hl).
    split; [congruence|]. intros r' p'. by rewrite Hc, Hr.
Qed.

Lemma cache_inv_run (evs : list Event) (st : State) :
  cache_inv st → cache_inv (run evs st).
Proof.
  revert st. induction evs as [|e evs IH]; intros st Hst; [done|].
  cbn. apply IH. by apply cache_inv_step.
Qed.

Lemma cache_inv_NoDup (st : State) : cache_inv st → NoDup (requests st).
Proof.
  intros [_ Hinv]. apply NoDup_alt. intros i j r Hi Hj.
  apply Hinv in Hi, Hj. congruence.
Qed.

Lemma step_keeps_entry (st : State) (e : Event) (r : string) (p : nat) :
  questionPromiseCache st !! r = Some p →
  questionPromiseCache (step st e) !! r = Some p.
Proof.
  intros Hr. destruct e as [r'|p' res]; cbn [step].
  - destruct (questionPromiseCache st !! r') as [q|] eqn:Hr'.
    + by rewrite (getQuestionPromise_hit r' q st Hr').
    + rewrite (getQuestionPromise_miss r' st Hr'). cbn.
      rewrite lookup_insert_ne; [done|]. congruence.
  - by destruct (settle_cache p' res st) as (-> & _ & _).
Qed.

Lemma run_keeps_entry (evs : list Event) (st : State) (r : string) (p : nat) :
  questionPromiseCache st !! r = Some p →
  questionPromiseCache (run evs st) !! r = Some p.
Proof.
  revert st. induction evs as [|e evs IH]; intros st Hr; [done|].
  cbn. apply IH. by apply step_keeps_entry.
Qed.

End Dedup.

(** C4: in whatever state the module is after any sequence of calls and of
    settlements (fulfilled or rejected), no job role was requested twice;
    a call for a role not yet cached sends the one request, caches the new
    pending promise and returns it; a call for a cached role returns the
    cached promise and sends nothing, whatever became of the promise; and
    no later call or settlement removes or replaces the entry. *)
Theorem getQuestionPromise_single_request
    (evs : list Generation.Event) (r : string) :
  let st := Generation.run evs Generation.init in
  NoDup (Generation.requests st)
  ∧ (Generation.questionPromiseCache st !! r = None →
     ∃ p st',
       Generation.getQuestionPromise r st = (Some p, st')
       ∧ Generation.requests st' = (Generation.requests st ++ [r])%list
       ∧ Generation.questionPromiseCache st' !! r = Some p
       ∧ Generation.promises st' !! p = Some Generation.Pending)
  ∧ (∀ p, Generation.questionPromiseCache st !! r = Some p →
     Generation.getQuestionPromise r st = (Some p, st))
  ∧ (∀ p evs', Generation.questionPromiseCache st !! r = Some p →
     Generation.questionPromiseCache (Generation.run evs' st) !! r = Some p
     ∧ Generation.getQuestionPromise r (Generation.run evs' st)
       = (Some p, Generation.run evs' st)).
Proof.
  intros st. split; [|split; [|split]].
  - apply cache_inv_NoDup, cache_inv_run, cache_inv_init.
  - intros Hr. eexists _, _. split; [by apply getQuestionPromise_miss|].
    cbn. split; [done|]. split; [by rewrite lookup_insert_eq|].
    by rewrite lookup_app_r, Nat.sub_diag.
  - intros p. apply getQuestionPromise_hit.
  - intros p evs' Hr. pose proof (run_keeps_entry evs' st r p Hr) as Hk.
    split; [exact Hk | by apply getQuestionPromise_hit].
Qed.

(** ** The session walk *)

Section Walk.

Import Interview.

Context (interviewId applicantId : Z) (questions : list Question).
Context (net : nat → bool).

#[local] Abbreviation goToNextQuestion :=
  (Interview.goToNextQuestion interviewId applicantId questions net).
#[local] Abbreviation handle := (Interview.handle interviewId applicantId questions net).
#[local] Abbreviation run := (Interview.run interviewId applicantId questions net).
#[local] Abbreviation currentQuestionIndex := (Interview.currentQuestionIndex questions).
#[local] Abbreviation isLastQuestion := (Interview.isLastQuestion questions).
#[local] Abbreviation question_screen := (Interview.question_screen questions).
#[local] Abbreviation answer_of := (Props.answer_of interviewId applicantId).
#[local] Abbreviation the_patch := (Props.the_patch applicantId).
#[local] Abbreviation gate_justified :=
  (Props.gate_justified interviewId applicantId questions net).
#[local] Abbreviation gate_inv :=
  (Props.gate_inv interviewId applicantId questions net).
#[local] Abbreviation after_last_answer :=
  (Props.after_last_answer interviewId applicantId questions net).
#[local] Abbreviation answers_to := (Props.answers_to interviewId applicantId).
#[local] Abbreviation progress :=
  (Props.progress interviewId applicantId questions).

Lemma or_empty_id (t : string) : or_empty t = t.
Proof. unfold or_empty. cbn. by destruct t. Qed.

Lemma findIndex_range {A} (p : A → bool) (l : list A) :
  findIndex p l = -1 ∨ 0 ≤ findIndex p l < Z.of_nat (length l).
Proof.
  induction l as [|x l IH]; cbn [findIndex length]; [by left|].
  destruct (p x); [right; lia|].
  destruct IH as [->|IH]; [by left|]. right.
  destruct (findIndex p l =? -1) eqn:E; lia.
Qed.

Lemma findIndex_found {A} (p : A → bool) (l : list A) (k : nat) (x : A) :
  l !! k = Some x → p x = true →
  (∀ j y, (j < k)%nat → l !! j = Some y → p y = false) →
  findIndex p l = Z.of_nat k.
Proof.
  revert k. induction l as [|a l IH]; intros k Hk Hp Hbefore; [done|].
  cbn [findIndex]. destruct k as [|k].
  - cbn in Hk. injection Hk as ->. by rewrite Hp.
  - rewrite (Hbefore 0%nat a) by (done || lia).
    rewrite (IH k); [| done | done |].
    + destruct (Z.of_nat k =? -1) eqn:E; lia.
    + intros j y Hj Hy. apply (Hbefore (S j) y); [lia | done].
Qed.

(** With pairwise distinct ids the index found for a question's id is the
    question's own position. *)
Lemma currentQuestionIndex_at (k : nat) (q : Question) :
  NoDup (id <$> questions) → questions !! k = Some q →
  currentQuestionIndex (id q) = Z.of_nat k.
Proof.
  intros Hnd Hk. unfold Interview.currentQuestionIndex.
  apply (findIndex_found _ _ k q); [done | apply Z.eqb_refl |].
  intros j y Hj Hy. apply Z.eqb_neq. intros Heq.
  assert (j = k); [|lia].
  apply (NoDup_lookup (id <$> questions) j k (id q)); [done | |].
  - rewrite list_lookup_fmap, Hy. cbn. by rewrite Heq.
  - by rewrite list_lookup_fmap, Hk.
Qed.

Lemma at_index_nat {A} (l : list A) (k : nat) :
  at_index l (Z.of_nat k) = l !! k.
Proof.
  unfold at_index. destruct (Z.ltb_spec (Z.of_nat k) 0); [lia|].
  by rewrite Nat2Z.id.
Qed.

(** What one run of [goToNextQuestion] leaves behind. *)
Lemma goToNextQuestion_result (q : Z) (w : World) :
  let w' := exec (goToNextQuestion q) w in
  let n := length (calls w) in
  let post := PostAnswer (answer_of q (transcript (speech w))) in
  let last := isLastQuestion q in
  calls w' = (calls w ++ post :: (if net n && last then [the_patch] else []))%list
  ∧ store w' =
      (if net n then
         if last && net (S n)
         then store_apply the_patch (store_apply post (store w))
         else store_apply post (store w)
       else store w)
  ∧ alerts w' =
      (alerts w ++ (if net n && (negb last || net (S n)) then []
                    else [save_error]))%list
  ∧ route w' =
      (if last then Complete
       else match at_index questions (currentQuestionIndex q + 1) with
            | Some next => QuestionRoute (id next)
            | None => route w
            end)
  ∧ submitting (comp w') = false
  ∧ listening (speech w') = false
  ∧ transcript (speech w') = transcript (speech w)
  ∧ browserSupportsSpeechRecognition (speech w')
      = browserSupportsSpeechRecognition (speech w)
  ∧ isMicrophoneAvailable (speech w') = isMicrophoneAvailable (speech w)
  ∧ answers_identity (comp w') =
      (if net n then S (answers_identity (comp w))
       else answers_identity (comp w)).
Proof.
  unfold exec, Interview.goToNextQuestion, handlePauseRecording,
    try_catch_finally, submitApplicantAnswer, updateApplicantStatus,
    apiRequest, when, mbind, M_bind, bind, setSubmitting, setIsPaused,
    setAnswers, stopListening, set_listening, alert, navigate, modify, ret,
    throw, Props.answer_of, Props.the_patch, save_error.
  rewrite or_empty_id.
  destruct (listening (speech w)) eqn:Hl; cbn;
    destruct (net (length (calls w))) eqn:Hn; cbn;
    destruct (isLastQuestion q) eqn:Hlast; cbn;
    rewrite ?length_app, ?Nat.add_1_r; cbn;
    try (destruct (net (S (length (calls w)))) eqn:Hn'; cbn);
    try (destruct (at_index questions (currentQuestionIndex q + 1)); cbn);
    rewrite <- ?app_assoc, ?app_nil_r; try rewrite Hl; repeat split;
    reflexivity.
Qed.

Lemma same_page_refl (w : World) : same_page w w.
Proof. by repeat split. Qed.

Lemma same_page_trans (w1 w2 w3 : World) :
  same_page w1 w2 → same_page w2 w3 → same_page w1 w3.
Proof.
  intros (? & ? & ? & ? & ?) (? & ? & ? & ? & ?). repeat split; congruence.
Qed.

Lemma rerender_same_page (before after : World) :
  same_page after (rerender before after)
  ∧ route (rerender before after) = route after
  ∧ submitting (comp (rerender before after)) = submitting (comp after).
Proof.
  unfold rerender. repeat case_match; by repeat split.
Qed.

Ltac crush_click :=
  unfold recording_click, exec, handleStartRecording, handlePauseRecording,
    handleContinueRecording, hear, when, startListening, stopListening,
    set_listening, set_transcript, setIsPaused, mbind, M_bind, bind, modify,
    ret;
  repeat match goal with
         | |- context [match ?x with _ => _ end] => destruct x eqn:?; cbn
         end;
  repeat split; try done.

(** Any event but a click on "next" leaves store, requests and alerts alone. *)
Lemma handle_not_next_same_page (e : Event) (w : World) :
  e ≠ ClickNext → same_page w (handle w e).
Proof.
  intros He. destruct e; try done; cbn [Interview.handle].
  - unfold startInterview, question_effect, resetTranscript, navigate.
    crush_click.
  - crush_click.
  - crush_click.
  - crush_click.
  - crush_click.
Qed.

(** Past the welcome screen such an event does not navigate either. *)
Lemma handle_not_next_route (e : Event) (w : World) :
  e ≠ ClickNext → route w ≠ Welcome →
  route (handle w e) = route w
  ∧ submitting (comp (handle w e)) = submitting (comp w)
  ∧ answers_identity (comp (handle w e)) = answers_identity (comp w).
Proof.
  intros He Hr. destruct e; try done; cbn [Interview.handle].
  - by destruct (route w) eqn:E.
  - crush_click.
  - crush_click.
  - crush_click.
  - crush_click.
Qed.

Lemma question_screen_same_page (q : Z) (w w' : World) :
  same_page w w' → question_screen q w' = question_screen q w.
Proof.
  intros (_ & _ & _ & Hb & Hm). unfold Interview.question_screen.
  by rewrite Hb, Hm.
Qed.

Lemma run_cons (e : Event) (evs : list Event) (w : World) :
  run (e :: evs) w = run evs (handle w e).
Proof. reflexivity. Qed.

Lemma run_app (evs1 evs2 : list Event) (w : World) :
  run (evs1 ++ evs2) w = run evs2 (run evs1 w).
Proof. apply foldl_app. Qed.

Lemma run_not_next (evs : list Event) (w : World) :
  Forall (λ e, not_next e = true) evs → route w ≠ Welcome →
  same_page w (run evs w)
  ∧ route (run evs w) = route w
  ∧ submitting (comp (run evs w)) = submitting (comp w)
  ∧ answers_identity (comp (run evs w)) = answers_identity (comp w).
Proof.
  intros Hevs. revert w. induction Hevs as [|e evs He _ IH]; intros w Hr.
  - split; [apply same_page_refl | done].
  - rewrite run_cons.
    assert (e ≠ ClickNext) as Hne by (by destruct e).
    destruct (handle_not_next_route e w Hne Hr) as (Hr1 & Hs1 & Ha1).
    pose proof (handle_not_next_same_page e w Hne) as Hp1.
    destruct (IH (handle w e)) as (Hp2 & Hr2 & Hs2 & Ha2); [congruence|].
    split; [by eapply same_page_trans|]. repeat split; congruence.
Qed.

Lemma silent_keeps_transcript (e : Event) (w : World) :
  silent e = true → route w ≠ Welcome →
  transcript (speech (handle w e)) = transcript (speech w).
Proof.
  intros He Hr. destruct e; try done; cbn [Interview.handle].
  - by destruct (route w) eqn:E.
  - crush_click.
  - crush_click.
  - crush_click.
Qed.

Lemma run_silent_transcript (evs : list Event) (w : World) :
  Forall (λ e, silent e = true) evs → route w ≠ Welcome →
  transcript (speech (run evs w)) = transcript (speech w).
Proof.
  intros Hevs. revert w. induction Hevs as [|e evs He _ IH]; intros w Hr.
  - done.
  - rewrite run_cons.
    assert (e ≠ ClickNext) as Hne by (by destruct e).
    destruct (handle_not_next_route e w Hne Hr) as (Hr1 & _).
    rewrite IH by congruence. by apply silent_keeps_transcript.
Qed.

(** A click on "next" while the question screen is up. *)
Lemma handle_next (q : Z) (w : World) :
  route w = QuestionRoute q → question_screen q w = true →
  submitting (comp w) = false →
  handle w ClickNext = rerender w (exec (goToNextQuestion q) w).
Proof.
  intros Hr Hs Hsub. cbn [Interview.handle]. by rewrite Hr, Hs, Hsub.
Qed.

Lemma click_next_result (q : Z) (w : World) :
  route w = QuestionRoute q → question_screen q w = true →
  submitting (comp w) = false →
  let w' := handle w ClickNext in
  let n := length (calls w) in
  let post := PostAnswer (answer_of q (transcript (speech w))) in
  let last := isLastQuestion q in
  calls w' = (calls w ++ post :: (if net n && last then [the_patch] else []))%list
  ∧ store w' =
      (if net n then
         if last && net (S n)
         then store_apply the_patch (store_apply post (store w))
         else store_apply post (store w)
       else store w)
  ∧ alerts w' =
      (alerts w ++ (if net n && (negb last || net (S n)) then []
                    else [save_error]))%list
  ∧ route w' =
      (if last then Complete
       else match at_index questions (currentQuestionIndex q + 1) with
            | Some next => QuestionRoute (id next)
            | None => route w
            end)
  ∧ submitting (comp w') = false
  ∧ browserSupportsSpeechRecognition (speech w')
      = browserSupportsSpeechRecognition (speech w)
  ∧ isMicrophoneAvailable (speech w') = isMicrophoneAvailable (speech w).
Proof.
  intros Hr Hs Hsub. cbv zeta. rewrite (handle_next q w Hr Hs Hsub).
  destruct (rerender_same_page w (exec (goToNextQuestion q) w))
    as ((Hst & Hc & Ha & Hb & Hm) & Hro & Hsu).
  destruct (goToNextQuestion_result q w)
    as (Gc & Gst & Ga & Gro & Gsu & _ & _ & Gb & Gm & _).
  rewrite Hst, Hc, Ha, Hb, Hm, Hro, Hsu. by repeat split.
Qed.

(** On a rendered question that is not the last one, a next one exists. *)
Lemma next_exists (q : Z) (w : World) :
  question_screen q w = true → isLastQuestion q = false →
  ∃ next, at_index questions (currentQuestionIndex q + 1) = Some next.
Proof.
  unfold Interview.question_screen, Interview.isLastQuestion,
    Interview.currentQuestion.
  intros Hs Hl. apply andb_true_iff in Hs as [Hs _].
  apply andb_true_iff in Hs as [Hs _]. apply bool_decide_eq_true in Hs.
  apply Z.eqb_neq in Hl.
  destruct (findIndex_range (λ q0, id q0 =? q) questions) as [Hi|Hi].
  - unfold Interview.currentQuestionIndex in Hs. rewrite Hi in Hs.
    by destruct Hs.
  - unfold Interview.currentQuestionIndex in *.
    set (i := findIndex _ questions) in *.
    replace (i + 1) with (Z.of_nat (Z.to_nat i + 1)) by lia.
    rewrite at_index_nat. apply lookup_lt_is_Some. lia.
Qed.

(** *** The status transition gate *)

Lemma gate_count_app (cs cs' : list ApiCall) :
  gate_count (cs ++ cs') = (gate_count cs + gate_count cs')%nat.
Proof. unfold gate_count. by rewrite List.filter_app, length_app. Qed.

Lemma after_last_answer_app (cs cs' : list ApiCall) (n : nat) :
  after_last_answer cs n → after_last_answer (cs ++ cs') n.
Proof.
  intros (m & qid & t & -> & Hm & Hrest). exists m, qid, t.
  split; [done|]. split; [|done]. by apply lookup_app_l_Some.
Qed.

Lemma handle_next_cases (w : World) :
  handle w ClickNext = w
  ∨ ∃ q, route w = QuestionRoute q ∧ question_screen q w = true
         ∧ submitting (comp w) = false.
Proof.
  cbn [Interview.handle]. destruct (route w) as [|q|] eqn:Hr; try by left.
  destruct (question_screen q w) eqn:Hs; [|by left].
  destruct (submitting (comp w)) eqn:Hsub; [by left|].
  right. by exists q.
Qed.

Lemma not_next_keeps_complete (e : Event) (w : World) :
  e ≠ ClickNext → route w = Complete → route (handle w e) = Complete.
Proof.
  intros He Hr. destruct (handle_not_next_route e w He) as [-> _]; [|done].
  by rewrite Hr.
Qed.

Lemma gate_inv_step (e : Event) (w : World) :
  gate_inv w → gate_inv (handle w e).
Proof.
  intros [Hj Hc].
  assert (e = ClickNext ∨ e ≠ ClickNext) as [->|He]
    by (destruct e; (by left) || by right).
  - destruct (handle_next_cases w) as [->|(q & Hr & Hs & Hsub)]; [done|].
    destruct (click_next_result q w Hr Hs Hsub) as (Gc & _ & _ & Gro & _).
    destruct Hc as [Hc|[_ Hcomplete]]; [|congruence].
    unfold Props.gate_inv, gate_calls in *. rewrite Gc. split.
    + intros n a s Hn. apply lookup_app_Some in Hn as [Hn|[Hge Hn]].
      * destruct (Hj n a s Hn) as (? & ? & ?).
        repeat split; try done. by apply after_last_answer_app.
      * destruct (n - length (calls w))%nat as [|[|k]] eqn:Hk; [done| |].
        -- destruct (net (length (calls w))) eqn:Hnet; [|done].
           destruct (isLastQuestion q) eqn:Hlast; [|done].
           cbn in Hn. injection Hn as <- <-. repeat split.
           exists (length (calls w)), q, (transcript (speech w)).
           repeat split; try done; [lia | | ].
           ++ by rewrite lookup_app_r, Nat.sub_diag.
           ++ unfold Interview.question_screen in Hs.
              apply andb_true_iff in Hs as [Hs _].
              apply andb_true_iff in Hs as [Hs _].
              by apply bool_decide_eq_true in Hs.
        -- cbn in Hn. by destruct (_ && _).
    + rewrite gate_count_app, Hc, Gro.
      destruct (isLastQuestion q); [|left; by destruct (net _)].
      destruct (net _); [by right | by left].
  - pose proof (handle_not_next_same_page e w He) as (_ & Hcalls & _).
    unfold Props.gate_inv, gate_calls. rewrite Hcalls. split; [done|].
    destruct Hc as [Hc|[Hc Hcomplete]]; [by left|]. right.
    split; [done|]. by apply not_next_keeps_complete.
Qed.

Lemma gate_inv_run (evs : list Event) (w : World) :
  gate_inv w → gate_inv (run evs w).
Proof.
  revert w. induction evs as [|e evs IH]; intros w Hw; [done|].
  rewrite run_cons. by apply IH, gate_inv_step.
Qed.

(** Along the page's own controls (no navigation by the browser): every
    status update that was sent sets this applicant to Completed and
    directly follows the accepted submission of the answer to the rendered
    last question; at most one status update is sent, and once it is sent
    the page shows the completion screen. *)
Lemma gate_once_on_the_page
    (s0 : Store) (supported microphone : bool) (evs : list Event) :
  let w := run evs (opened s0 supported microphone) in
  gate_justified (calls w)
  ∧ (gate_calls w ≤ 1)%nat
  ∧ (gate_calls w = 0%nat ∨ route w = Complete).
Proof.
  intros w.
  destruct (gate_inv_run evs (opened s0 supported microphone)) as [Hj Hc].
  - split; [|by left]. intros n a s Hn. by destruct n.
  - split; [done|]. fold w in Hc.
    destruct Hc as [Hc|[Hc Hr]]; rewrite Hc.
    + split; [lia | by left].
    + split; [lia | by right].
Qed.

(** *** Failure of the last submission *)

(** C10: on the rendered last question, when the request that submits the
    answer fails, the click on "next" still navigates to the completion
    screen, whose notice says the responses were recorded; one alert is
    shown; the status update is not sent; the store is exactly as before
    (no answer row added, interview_status as it was). *)
Theorem last_answer_failure_still_completes (q : Z) (w : World) :
  route w = QuestionRoute q → question_screen q w = true →
  submitting (comp w) = false →
  isLastQuestion q = true → net (length (calls w)) = false →
  let w' := handle w ClickNext in
  route w' = Complete
  ∧ notice w' = Some InterviewComplete_notice
  ∧ store w' = store w
  ∧ calls w' =
      (calls w ++ [PostAnswer (answer_of q (transcript (speech w)))])%list
  ∧ gate_calls w' = gate_calls w
  ∧ alerts w' = (alerts w ++ [save_error])%list.
Proof.
  intros Hr Hs Hsub Hlast Hnet w'.
  destruct (click_next_result q w Hr Hs Hsub) as (Gc & Gst & Ga & Gro & _).
  fold w' in Gc, Gst, Ga, Gro. rewrite Hnet, Hlast in *.
  cbn [andb orb negb] in Gc, Ga.
  repeat split; try done.
  - unfold notice. by rewrite Gro.
  - unfold gate_calls. rewrite Gc, gate_count_app. cbn. lia.
Qed.

(** *** A question the applicant does not answer *)

(** C7: the applicant enters a question (empty transcript), may press the
    recording buttons but says nothing, and clicks "next" while the store
    accepts the requests: the transcript is still the empty string, an
    answer row with the empty string is stored for this question, no alert
    is shown, and the walk goes on as for any answer: to the next question,
    or, from the last one, to the completion screen after the status
    update. *)
Theorem skipped_answer_is_persisted
    (q : Z) (w : World) (pressed : list Event) :
  route w = QuestionRoute q → question_screen q w = true →
  submitting (comp w) = false →
  transcript (speech w) = "" →
  Forall (λ e, silent e = true) pressed →
  net (length (calls w)) = true → net (S (length (calls w))) = true →
  let w1 := run pressed w in
  let w' := handle w1 ClickNext in
  transcript (speech w1) = ""
  ∧ calls w' =
      (calls w ++ PostAnswer (answer_of q "")
         :: (if isLastQuestion q then [the_patch] else []))%list
  ∧ applicant_answer (store w') =
      (applicant_answer (store w) ++ [(answer_of q "", USERNAME)])%list
  ∧ alerts w' = alerts w
  ∧ (if isLastQuestion q then
       route w' = Complete
       ∧ applicant (store w') =
           alter (λ _, {| interview_status := "Completed";
                          username := USERNAME |})
                 applicantId (applicant (store w))
     else
       applicant (store w') = applicant (store w)
       ∧ ∃ next,
           at_index questions (currentQuestionIndex q + 1) = Some next
           ∧ route w' = QuestionRoute (id next)).
Proof.
  intros Hr Hs Hsub Ht Hpressed Hn Hn' w1 w'.
  assert (route w ≠ Welcome) as Hnw by (by rewrite Hr).
  assert (Forall (λ e, not_next e = true) pressed) as Hnn.
  { eapply Forall_impl; [exact Hpressed|]. by intros []. }
  destruct (run_not_next pressed w Hnn Hnw)
    as ((Hst & Hc & Ha & Hb & Hm) & Hr1 & Hsub1 & _).
  fold w1 in Hst, Hc, Ha, Hb, Hm, Hr1, Hsub1.
  assert (transcript (speech w1) = "") as Ht1.
  { unfold w1. by rewrite run_silent_transcript. }
  assert (question_screen q w1 = true) as Hs1.
  { rewrite <- Hs. by apply question_screen_same_page. }
  destruct (click_next_result q w1) as (Gc & Gst & Ga & Gro & _);
    [congruence | done | congruence |].
  fold w' in Gc, Gst, Ga, Gro.
  rewrite Ht1, Hc, Hn, Hn', Hst, Ha, Hr1 in *.
  split; [done|]. cbn [andb orb] in *. rewrite orb_true_r in Ga.
  rewrite app_nil_r in Ga. rewrite andb_true_r in Gst.
  destruct (isLastQuestion q) eqn:Hlast.
  - rewrite Gst. by repeat split.
  - rewrite Gst. repeat split; try done.
    destruct (next_exists q w Hs Hlast) as [next Hnext].
    exists next. split; [done|]. by rewrite Gro, Hnext.
Qed.

(** *** Walking the whole list *)

Lemma walk_events_snoc (rounds : list (list Event)) (r : list Event) :
  walk_events (rounds ++ [r]) = (walk_events rounds ++ (r ++ [ClickNext]))%list.
Proof.
  unfold walk_events. rewrite fmap_app, concat_app. cbn.
  by rewrite app_nil_r.
Qed.

Lemma progress_start (s0 : Store) :
  questions ≠ [] →
  progress s0 0 (handle (opened s0 true true) ClickStartInterview).
Proof.
  intros Hne. unfold Props.progress.
  destruct questions as [|q0 rest]; [done|].
  exists []. cbn [Interview.handle opened route start_disabled length Nat.eqb].
  unfold exec, startInterview, question_effect, resetTranscript,
    set_transcript, setIsPaused, navigate, mbind, M_bind, bind, modify.
  cbn. rewrite app_nil_r. repeat split; try done. constructor.
Qed.

Lemma progress_step (s0 : Store) (k : nat) (r : list Event) (w : World) :
  NoDup (id <$> questions) → (∀ n, net n = true) →
  (k < length questions)%nat →
  Forall (λ e, not_next e = true) r →
  progress s0 k w →
  progress s0 (S k) (run (r ++ [ClickNext]) w).
Proof.
  intros Hnd Hnet Hk Hr (rows & Hrows & Hc & Hsa & Hsp & Ha & Hsub & Hb & Hm & Hro).
  destruct (lookup_lt_is_Some_2 questions k Hk) as [q Hq].
  rewrite Hq in Hro. rewrite bool_decide_eq_false_2 in Hc, Hsp by lia.
  rewrite app_nil_r in Hc.
  rewrite run_app. set (w1 := run r w).
  destruct (run_not_next r w Hr) as ((Hst1 & Hc1 & Ha1 & Hb1 & Hm1) & Hr1 & Hsub1 & _);
    [by rewrite Hro|].
  fold w1 in Hst1, Hc1, Ha1, Hb1, Hm1, Hr1, Hsub1.
  pose proof (currentQuestionIndex_at k q Hnd Hq) as Hidx.
  assert (question_screen (id q) w1 = true) as Hs1.
  { unfold Interview.question_screen, Interview.currentQuestion.
    rewrite Hidx, at_index_nat, Hq, Hb1, Hm1, Hb, Hm.
    by rewrite bool_decide_eq_true_2. }
  change (run [ClickNext] w1) with (handle w1 ClickNext).
  destruct (click_next_result (id q) w1) as (Gc & Gst & Ga & Gro & Gsub & Gb & Gm);
    [congruence | done | congruence |].
  repeat rewrite Hnet in Gc. repeat rewrite Hnet in Gst.
  repeat rewrite Hnet in Ga.
  rewrite orb_true_r in Ga.
  cbn [andb] in Gc, Gst. rewrite andb_true_r in Gst.
  assert (isLastQuestion (id q) = bool_decide (S k = length questions)) as Hlast.
  { unfold Interview.isLastQuestion. rewrite Hidx.
    destruct (decide (S k = length questions)) as [He|He].
    - rewrite bool_decide_eq_true_2 by done. apply Z.eqb_eq. lia.
    - rewrite bool_decide_eq_false_2 by done. apply Z.eqb_neq. lia. }
  rewrite Hlast in Gc, Gst, Gro.
  exists (rows ++ [answer_of (id q) (transcript (speech w1))])%list.
  split; [|split; [|split; [|split; [|split; [|split; [|split; [|split]]]]]]].
  - rewrite (take_S_r _ _ _ Hq). apply Forall2_app; [done|].
    constructor; [by eexists | constructor].
  - rewrite Gc, Hc1, Hc, fmap_app, <- app_assoc. reflexivity.
  - rewrite Gst, Hst1. unfold stored in *. rewrite fmap_app, app_assoc.
    destruct (bool_decide (S k = length questions)); cbn; by rewrite Hsa.
  - rewrite Gst, Hst1.
    destruct (bool_decide (S k = length questions)); cbn; by rewrite Hsp.
  - by rewrite Ga, Ha1, Ha, app_nil_r.
  - done.
  - congruence.
  - congruence.
  - rewrite Gro, Hidx.
    replace (Z.of_nat k + 1) with (Z.of_nat (S k)) by lia.
    rewrite at_index_nat.
    destruct (decide (S k = length questions)) as [He|He].
    + rewrite bool_decide_eq_true_2 by done.
      by rewrite lookup_ge_None_2 by lia.
    + rewrite bool_decide_eq_false_2 by done.
      destruct (lookup_lt_is_Some_2 questions (S k)) as [q' Hq']; [lia|].
      by rewrite Hq'.
Qed.

Lemma progress_walk (s0 : Store) (rounds : list (list Event)) (k : nat) :
  NoDup (id <$> questions) → (∀ n, net n = true) → questions ≠ [] →
  length rounds = length questions →
  Forall (Forall (λ e, not_next e = true)) rounds →
  (k ≤ length questions)%nat →
  progress s0 k
    (run (walk_events (take k rounds))
         (handle (opened s0 true true) ClickStartInterview)).
Proof.
  intros Hnd Hnet Hne Hlen Hrounds. induction k as [|k IH]; intros Hk.
  - rewrite take_0. by apply progress_start.
  - destruct (lookup_lt_is_Some_2 rounds k) as [r Hr]; [lia|].
    rewrite (take_S_r _ _ _ Hr), walk_events_snoc, run_app.
    apply (progress_step s0 k r); [done | done | lia | | apply IH; lia].
    by eapply Forall_lookup_1 in Hrounds.
Qed.

(** C2: with N >= 1 questions of pairwise distinct ids, a store that accepts
    every request, and the question screen rendered, starting the interview
    and advancing N times (whatever the applicant does in between) shows
    question k after k advances for every k < N, with the current index
    equal to k and no status update sent yet; the N-th advance ends on the
    completion screen; exactly one answer was posted and stored per
    question, in order; and the status update was sent exactly once, after
    the last answer. *)
Theorem walk_visits_every_question
    (s0 : Store) (rounds : list (list Event)) :
  NoDup (id <$> questions) → (∀ n, net n = true) →
  (1 ≤ length questions)%nat →
  length rounds = length questions →
  Forall (Forall (λ e, not_next e = true)) rounds →
  let w0 := handle (opened s0 true true) ClickStartInterview in
  let after k := run (walk_events (take k rounds)) w0 in
  let N := length questions in
  (∀ k q, questions !! k = Some q →
     route (after k) = QuestionRoute (id q)
     ∧ currentQuestionIndex (id q) = Z.of_nat k
     ∧ length (calls (after k)) = k
     ∧ gate_calls (after k) = 0%nat)
  ∧ route (after N) = Complete
  ∧ (∃ rows,
       answers_to questions rows
       ∧ calls (after N) = ((PostAnswer <$> rows) ++ [the_patch])%list
       ∧ applicant_answer (store (after N))
         = (applicant_answer s0 ++ stored rows)%list)
  ∧ gate_calls (after N) = 1%nat
  ∧ alerts (after N) = [].
Proof.
  intros Hnd Hnet HN Hlen Hrounds w0 after N.
  assert (questions ≠ []) as Hne by (intros E; rewrite E in HN; cbn in HN; lia).
  assert (∀ rows : list AnswerData, gate_count (PostAnswer <$> rows) = 0%nat)
    as Hposts.
  { intros rows. unfold gate_count. induction rows; [done|]. by cbn. }
  split; [|].
  - intros k q Hq. pose proof (lookup_lt_Some _ _ _ Hq) as Hk.
    destruct (progress_walk s0 rounds k Hnd Hnet Hne Hlen Hrounds)
      as (rows & Hrows & Hc & _ & _ & _ & _ & _ & _ & Hro); [lia|].
    fold w0 in Hc, Hro. fold (after k) in Hc, Hro.
    rewrite Hq in Hro. rewrite bool_decide_eq_false_2 in Hc by lia.
    rewrite app_nil_r in Hc.
    split; [done|]. split; [by apply currentQuestionIndex_at|]. split.
    + rewrite Hc, length_fmap. apply Forall2_length in Hrows.
      rewrite <- Hrows, length_take. lia.
    + unfold gate_calls. rewrite Hc. apply Hposts.
  - destruct (progress_walk s0 rounds N Hnd Hnet Hne Hlen Hrounds)
      as (rows & Hrows & Hc & Hsa & _ & Ha & _ & _ & _ & Hro); [done|].
    fold w0 in Hc, Hsa, Ha, Hro. fold (after N) in Hc, Hsa, Ha, Hro.
    rewrite bool_decide_eq_true_2 in Hc by done.
    rewrite lookup_ge_None_2 in Hro by done.
    unfold N in Hrows. rewrite firstn_all in Hrows.
    split; [done|]. split; [by exists rows|]. split; [|done].
    unfold gate_calls. by rewrite Hc, gate_count_app, Hposts.
Qed.

(** *** Completing twice *)

Lemma store_apply_patch_twice (a : Z) (status : string) (s : Store) :
  store_apply (PatchApplicant a status)
    (store_apply (PatchApplicant a status) s)
  = store_apply (PatchApplicant a status) s.
Proof.
  destruct s as [rows m]. cbn. f_equal. apply map_eq. intros i.
  destruct (decide (a = i)) as [->|Hne].
  - rewrite !lookup_alter_eq. by destruct (m !! i).
  - by rewrite !lookup_alter_ne.
Qed.

(** C6: for an applicant of the store, and a store that accepts both
    requests, completing twice in a row throws neither time, leaves
    interview_status at Completed, and the second call changes nothing but
    the request log: the store and the page are as after the first. *)
Theorem complete_twice_is_idempotent
    (a : Z) (row : ApplicantRow) (w : World) :
  applicant (store w) !! a = Some row →
  net (length (calls w)) = true → net (S (length (calls w))) = true →
  let complete := updateApplicantStatus net a "Completed" in
  let once := complete w in
  let twice := complete (snd once) in
  fst once = Ok tt ∧ fst twice = Ok tt
  ∧ interview_status <$> applicant (store (snd once)) !! a = Some "Completed"
  ∧ interview_status <$> applicant (store (snd twice)) !! a = Some "Completed"
  ∧ store (snd twice) = store (snd once)
  ∧ with_calls (calls (snd once)) (snd twice) = snd once.
Proof.
  intros Hrow Hn Hn'. cbv zeta.
  unfold updateApplicantStatus, apiRequest. rewrite Hn. cbn [fst snd].
  cbn [with_store with_calls calls store route alerts speech comp].
  rewrite length_app, Nat.add_1_r, Hn'. cbn [fst snd].
  cbn [with_store with_calls calls store route alerts speech comp].
  rewrite store_apply_patch_twice.
  repeat split; cbn; by rewrite lookup_alter_eq, Hrow.
Qed.

End Walk.

(** ** An interview without questions *)

Lemma handle_welcome_no_questions
    (interviewId applicantId : Z) (net : nat → bool)
    (e : Interview.Event) (w : Interview.World) :
  Interview.route w = Interview.Welcome →
  Interview.listening (Interview.speech w) = false →
  Interview.handle interviewId applicantId [] net w e = w.
Proof.
  intros Hr Hl. destruct e; cbn [Interview.handle].
  - by rewrite Hr.
  - unfold Interview.recording_click. by rewrite Hr.
  - unfold Interview.recording_click. by rewrite Hr.
  - unfold Interview.recording_click. by rewrite Hr.
  - unfold Interview.exec, Interview.hear. by rewrite Hl.
  - by rewrite Hr.
Qed.

(** C8: with an empty question list [startInterview] does not navigate, the
    start control is disabled, and whatever the applicant does on the page
    it stays as it was opened, on the welcome screen: the question screen is
    never entered. *)
Theorem no_questions_no_entry
    (interviewId applicantId : Z) (net : nat → bool) (s0 : Interview.Store)
    (supported microphone : bool) (evs : list Interview.Event)
    (w : Interview.World) :
  Interview.startInterview [] w = (Ok tt, w)
  ∧ Interview.start_disabled [] = true
  ∧ Interview.run interviewId applicantId [] net evs
      (Interview.opened s0 supported microphone)
    = Interview.opened s0 supported microphone.
Proof.
  split; [done|]. split; [done|].
  induction evs as [|e evs IH]; [done|].
  unfold Interview.run. cbn [foldl].
  by rewrite handle_welcome_no_questions.
Qed.

(** C1 (the code at the failing input): the applicant starts the interview
    and clicks "next" on the first of two questions while the store refuses
    the request. The answer is not stored and the alert asks to try again,
    yet the page has moved on to the second question. *)
Theorem failed_submission_still_advances :
  let w := Interview.run the_interview the_applicant [Q1; Q2] refusing
             [Interview.ClickStartInterview; Interview.ClickNext]
             (Interview.opened not_started true true) in
  Interview.route w = Interview.QuestionRoute (Interview.id Q2)
  ∧ Interview.currentQuestionIndex [Q1; Q2] (Interview.id Q2) = 1
  ∧ Interview.alerts w = [save_error]
  ∧ Interview.applicant_answer (Interview.store w) = []
  ∧ Interview.calls w
    = [Interview.PostAnswer
         (answer_of the_interview the_applicant (Interview.id Q1) "")].
Proof. repeat split. Qed.

Lemma walk_visits_every_question_witness :
  let w := Interview.run the_interview the_applicant [Q1; Q2] accepting
             (walk_events [first_answer; []])
             (Interview.handle the_interview the_applicant [Q1; Q2] accepting
                (Interview.opened not_started true true)
                Interview.ClickStartInterview) in
  Interview.route w = Interview.Complete
  ∧ Interview.gate_calls w = 1%nat
  ∧ Interview.alerts w = [].
Proof.
  destruct (walk_visits_every_question the_interview the_applicant [Q1; Q2]
              accepting not_started [first_answer; []])
    as (_ & Hroute & _ & Hgate & Halerts).
  - apply (bool_decide_unpack _). vm_compute. exact I.
  - intros n. reflexivity.
  - cbn. lia.
  - reflexivity.
  - repeat constructor.
  - split; [exact Hroute | split; [exact Hgate | exact Halerts]].
Defined.

Lemma complete_twice_is_idempotent_witness :
  let complete :=
    Interview.updateApplicantStatus accepting the_applicant "Completed" in
  let once := complete (Interview.opened not_started true true) in
  let twice := complete (snd once) in
  fst once = Ok tt ∧ fst twice = Ok tt
  ∧ Interview.store (snd twice) = Interview.store (snd once).
Proof.
  destruct (complete_twice_is_idempotent accepting the_applicant
              {| Interview.interview_status := "Not Started";
                 Interview.username := Interview.USERNAME |}
              (Interview.opened not_started true true))
    as (H1 & H2 & _ & _ & H3 & _).
  - reflexivity.
  - reflexivity.
  - reflexivity.
  - split; [exact H1 | split; [exact H2 | exact H3]].
Defined.

Lemma skipped_answer_is_persisted_witness :
  let w := on_second_question accepting in
  let w' := Interview.handle the_interview the_applicant [Q1; Q2] accepting
              w Interview.ClickNext in
  Interview.applicant_answer (Interview.store w') =
    [(answer_of the_interview the_applicant (Interview.id Q1)
        "I am a developer", Interview.USERNAME);
     (answer_of the_interview the_applicant (Interview.id Q2) "",
      Interview.USERNAME)]
  ∧ Interview.alerts w' = []
  ∧ Interview.route w' = Interview.Complete.
Proof.
  destruct (skipped_answer_is_persisted the_interview the_applicant [Q1; Q2]
              accepting (Interview.id Q2) (on_second_question accepting) [])
    as (_ & _ & Hrows & Halerts & Hlast).
  - reflexivity.
  - reflexivity.
  - reflexivity.
  - reflexivity.
  - constructor.
  - reflexivity.
  - reflexivity.
  - vm_compute in Hrows, Halerts, Hlast |- *.
    split; [exact Hrows | split; [exact Halerts | exact (proj1 Hlast)]].
Defined.

Lemma last_answer_failure_still_completes_witness :
  let w := on_second_question refusing_second in
  let w' := Interview.handle the_interview the_applicant [Q1; Q2]
              refusing_second w Interview.ClickNext in
  Interview.route w' = Interview.Complete
  ∧ Interview.notice w' = Some Interview.InterviewComplete_notice
  ∧ Interview.applicant (Interview.store w') !! the_applicant
    = Some {| Interview.interview_status := "Not Started";
              Interview.username := Interview.USERNAME |}
  ∧ Interview.applicant_answer (Interview.store w')
    = [(answer_of the_interview the_applicant (Interview.id Q1)
          "I am a developer", Interview.USERNAME)].
Proof.
  destruct (last_answer_failure_still_completes the_interview the_applicant
              [Q1; Q2] refusing_second (Interview.id Q2)
              (on_second_question refusing_second))
    as (Hroute & Hnotice & Hstore & _).
  - reflexivity.
  - reflexivity.
  - reflexivity.
  - reflexivity.
  - reflexivity.
  - split; [exact Hroute | split; [exact Hnotice |]].
    rewrite Hstore. vm_compute. split; reflexivity.
Defined.

(** ** The status transition gate and the browser *)

Section GateHistory.

Import Interview.

Context (interviewId applicantId : Z) (questions : list Question).
Context (net : nat → bool).

#[local] Abbreviation handle :=
  (Interview.handle interviewId applicantId questions net).
#[local] Abbreviation gate_justified :=
  (Props.gate_justified interviewId applicantId questions net).
#[local] Abbreviation act := (History.act interviewId applicantId questions net).
#[local] Abbreviation browse :=
  (History.browse interviewId applicantId questions net).

Lemma handle_on_complete (e : Event) (w : World) :
  route w = Complete →
  calls (handle w e) = calls w ∧ route (handle w e) = Complete.
Proof.
  intros Hr.
  assert (e = ClickNext ∨ e ≠ ClickNext) as [->|He]
    by (destruct e; (by left) || by right).
  - cbn [Interview.handle]. by rewrite Hr.
  - destruct (handle_not_next_same_page interviewId applicantId questions net
                e w He) as (_ & -> & _).
    split; [done|].
    by apply (not_next_keeps_complete interviewId applicantId questions net).
Qed.

Lemma handle_gate_justified (e : Event) (w : World) :
  gate_justified (calls w) → gate_justified (calls (handle w e)).
Proof.
  intros Hj.
  assert (e = ClickNext ∨ e ≠ ClickNext) as [->|He]
    by (destruct e; (by left) || by right).
  - destruct (handle_next_cases interviewId applicantId questions net w)
      as [->|(q & Hr & Hs & Hsub)]; [done|].
    destruct (click_next_result interviewId applicantId questions net
                q w Hr Hs Hsub) as (Gc & _).
    rewrite Gc. intros n a s Hn.
    apply lookup_app_Some in Hn as [Hn|[Hge Hn]].
    + destruct (Hj n a s Hn) as (? & ? & ?).
      repeat split; try done.
      by apply (after_last_answer_app interviewId applicantId questions net).
    + destruct (n - length (calls w))%nat as [|[|k]] eqn:Hk; [done| |].
      * destruct (net (length (calls w))) eqn:Hnet; [|done].
        destruct (Interview.isLastQuestion questions q) eqn:Hlast; [|done].
        cbn in Hn. injection Hn as <- <-. repeat split.
        exists (length (calls w)), q, (transcript (speech w)).
        repeat split; try done; [lia | | ].
        -- by rewrite lookup_app_r, Nat.sub_diag.
        -- unfold Interview.question_screen in Hs.
           apply andb_true_iff in Hs as [Hs _].
           apply andb_true_iff in Hs as [Hs _].
           by apply bool_decide_eq_true in Hs.
      * cbn in Hn. by destruct (_ && _).
  - by destruct (handle_not_next_same_page interviewId applicantId questions
                   net e w He) as (_ & -> & _).
Qed.

Lemma handle_gate_count (e : Event) (w : World) :
  gate_calls (handle w e) = gate_calls w
  ∨ (gate_calls (handle w e) = S (gate_calls w)
     ∧ route (handle w e) = Complete).
Proof.
  assert (e = ClickNext ∨ e ≠ ClickNext) as [->|He]
    by (destruct e; (by left) || by right).
  - destruct (handle_next_cases interviewId applicantId questions net w)
      as [->|(q & Hr & Hs & Hsub)]; [by left|].
    destruct (click_next_result interviewId applicantId questions net
                q w Hr Hs Hsub) as (Gc & _ & _ & Gro & _).
    unfold gate_calls. rewrite Gc, gate_count_app, Gro.
    destruct (net (length (calls w))); cbn [andb];
      destruct (Interview.isLastQuestion questions q); cbn;
      (by left; lia) || (right; split; [lia | done]).
  - left. unfold gate_calls.
    by destruct (handle_not_next_same_page interviewId applicantId questions
                   net e w He) as (_ & -> & _).
Qed.

Lemma arrive_calls (r : Route) (w : World) :
  calls (History.arrive r w) = calls w.
Proof.
  unfold History.arrive. destruct (route w) eqn:Hw.
  - by destruct r.
  - by destruct (rerender_same_page w (with_route r w)) as ((_ & -> & _) & _).
  - by destruct r.
Qed.

Lemma load_calls (r : Route) (w : World) :
  calls (History.load r w) = calls w.
Proof. unfold History.load. by destruct r. Qed.

Lemma act_keeps (n : nat) (a : History.Action) (b : History.Browser) :
  gate_justified (calls (History.page b)) →
  History.gate_bounded n (History.page b) →
  gate_justified (calls (History.page (act b a)))
  ∧ History.gate_bounded
      (if History.is_navigation a then S n else n) (History.page (act b a)).
Proof.
  intros Hj Hb. unfold History.gate_bounded in *.
  destruct a as [e| | |r]; cbn [History.act History.is_navigation].
  - assert (History.page
              (if History.route_eqb (route (handle (History.page b) e))
                                   (route (History.page b))
               then {| History.page := handle (History.page b) e;
                       History.past := History.past b;
                       History.future := History.future b |}
               else {| History.page := handle (History.page b) e;
                       History.past := route (History.page b)
                                         :: History.past b;
                       History.future := [] |})
            = handle (History.page b) e) as -> by (by destruct (History.route_eqb _ _)).
    split; [by apply handle_gate_justified|].
    destruct Hb as [Hb|[Hb Hr]].
    + destruct (handle_gate_count e (History.page b)) as [->|[-> Hc]];
        [by left | right; split; [lia | done]].
    + destruct (handle_on_complete e (History.page b) Hr) as [Hc Hr'].
      right. unfold gate_calls in *. rewrite Hc. by split.
  - destruct (History.past b) as [|r rest]; cbn [History.page].
    + split; [done|]. left. destruct Hb as [?|[? _]]; lia.
    + unfold gate_calls. rewrite arrive_calls. split; [done|]. left.
      unfold gate_calls in Hb. destruct Hb as [?|[? _]]; lia.
  - destruct (History.future b) as [|r rest]; cbn [History.page].
    + split; [done|]. left. destruct Hb as [?|[? _]]; lia.
    + unfold gate_calls. rewrite arrive_calls. split; [done|]. left.
      unfold gate_calls in Hb. destruct Hb as [?|[? _]]; lia.
  - cbn [History.page]. unfold gate_calls. rewrite load_calls.
    split; [done|]. left. unfold gate_calls in Hb.
    destruct Hb as [?|[? _]]; lia.
Qed.

Lemma browse_keeps (actions : list History.Action) (n : nat)
    (b : History.Browser) :
  gate_justified (calls (History.page b)) →
  History.gate_bounded n (History.page b) →
  gate_justified (calls (History.page (browse actions b)))
  ∧ History.gate_bounded (n + History.navigations actions)
      (History.page (browse actions b)).
Proof.
  revert n b. induction actions as [|a actions IH]; intros n b Hj Hb.
  - cbn. by rewrite Nat.add_0_r.
  - change (browse (a :: actions) b) with (browse actions (act b a)).
    destruct (act_keeps n a b Hj Hb) as [Hj' Hb'].
    destruct (IH _ _ Hj' Hb') as [Hj'' Hb'']. split; [done|].
    unfold History.navigations in *. cbn [List.filter].
    destruct (History.is_navigation a); cbn [length];
      by rewrite <- ?Nat.add_succ_comm.
Qed.


End GateHistory.


(** ** More on the generation endpoint and the validator *)

Lemma generate_question_unusable
    (invoke : string → option Value) (req : Server.Request) :
  (∀ s, ¬ usable_role (requested_role req) s) →
  Server.generate_question invoke req =
    {| Server.status := 400;
       Server.json := VObj [("error", VStr "Role Description is required")] |}.
Proof.
  intros Hno. unfold Server.generate_question. fold (requested_role req).
  destruct (requested_role req) as [| | | |s| |] eqn:Hrole;
    cbn [truthy is_string negb orb]; try reflexivity.
  - by destruct b.
  - by destruct (negb (n =? 0)).
  - destruct (String.eqb_spec s "") as [->|Hne]; [done|].
    exfalso. by apply (Hno s).
Qed.

Lemma generate_question_usable
    (invoke : string → option Value) (req : Server.Request) (s : string) :
  usable_role (requested_role req) s →
  Server.generate_question invoke req =
    match invoke s with
    | None =>
        {| Server.status := 500;
           Server.json := VObj [("error", VStr "Failed to generate interview questions, ensure role description and interview is added first.")] |}
    | Some result =>
        match safeParse QuestionSchema result with
        | None =>
            {| Server.status := 502;
               Server.json := VObj [("error", VStr "Model returned invalid schema")] |}
        | Some data => {| Server.status := 200; Server.json := data |}
        end
    end.
Proof.
  intros [Hrole Hne]. unfold Server.generate_question.
  fold (requested_role req). rewrite Hrole. cbn [truthy is_string string_of].
  destruct (String.eqb_spec s ""); done.
Qed.

Lemma usable_role_dec (v : Value) :
  (∃ s, usable_role v s) ∨ (∀ s, ¬ usable_role v s).
Proof.
  destruct v as [| | | |s| |]; try (right; intros s' [? _]; done).
  destruct (String.eqb_spec s "") as [->|Hne].
  - right. intros s' [[= <-] ?]. done.
  - left. by exists s.
Qed.

Lemma valid_suggestions_parse (v : Value) :
  valid_suggestions v ↔ is_Some (safeParse QuestionSchema v).
Proof.
  split.
  - intros (fields & items & -> & Hq & Hne & Hall).
    destruct (Forall2_Forall_l_some items Hall) as [out Hout].
    eexists. apply safeParse_QuestionSchema. by exists fields, items, out.
  - intros [v' Hv].
    apply safeParse_QuestionSchema in Hv
      as (fields & items & out & -> & Hq & Hne & Hall & _).
    exists fields, items. repeat split; try done.
    by apply Forall2_parsed_valid in Hall.
Qed.

(** The status the handler itself chooses, once a request reaches it. *)
Lemma generate_question_status_classes
    (invoke : string → option Value) (req : Server.Request) :
  let r := Server.generate_question invoke req in
  let role := requested_role req in
  (Server.status r = 400 ↔ ∀ s, ¬ usable_role role s)
  ∧ (Server.status r = 500 ↔ ∃ s, usable_role role s ∧ invoke s = None)
  ∧ (Server.status r = 502 ↔
       ∃ s out, usable_role role s ∧ invoke s = Some out
                ∧ ¬ valid_suggestions out)
  ∧ (Server.status r = 200 ↔
       ∃ s out, usable_role role s ∧ invoke s = Some out
                ∧ valid_suggestions out)
  ∧ (∀ other : string → option Value,
       (∀ s, ¬ usable_role role s) →
       Server.generate_question other req = r).
Proof.
  intros r role. subst r role.
  destruct (usable_role_dec (requested_role req)) as [[s Hs]|Hno].
  - assert (∀ s', usable_role (requested_role req) s' → s' = s) as Huniq.
    { intros s' [H1 _]. destruct Hs as [H2 _]. congruence. }
    rewrite (generate_question_usable invoke req s Hs).
    destruct (invoke s) as [out|] eqn:Hinv.
    + destruct (safeParse QuestionSchema out) as [data|] eqn:Hp.
      * assert (valid_suggestions out) as Hv
          by (apply valid_suggestions_parse; by rewrite Hp).
        cbn [Server.status]. repeat split; try done.
        -- intros H. by destruct (H s).
        -- intros (s' & Hs' & Hnone). apply Huniq in Hs' as ->. congruence.
        -- intros (s' & o & Hs' & Ho & Hnv). apply Huniq in Hs' as ->.
           congruence.
        -- intros _. by exists s, out.
        -- intros other H. by destruct (H s).
      * assert (¬ valid_suggestions out) as Hv.
        { intros Hv%valid_suggestions_parse. rewrite Hp in Hv.
          by destruct Hv. }
        cbn [Server.status]. repeat split; try done.
        -- intros H. by destruct (H s).
        -- intros (s' & Hs' & Hnone). apply Huniq in Hs' as ->. congruence.
        -- intros _. by exists s, out.
        -- intros (s' & o & Hs' & Ho & Hvo). apply Huniq in Hs' as ->.
           congruence.
        -- intros other H. by destruct (H s).
    + cbn [Server.status]. repeat split; try done.
      * intros H. by destruct (H s).
      * intros _. by exists s.
      * intros (s' & o & Hs' & Ho & _). apply Huniq in Hs' as ->. congruence.
      * intros (s' & o & Hs' & Ho & _). apply Huniq in Hs' as ->. congruence.
      * intros other H. by destruct (H s).
  - rewrite (generate_question_unusable invoke req Hno).
    cbn [Server.status]. repeat split; try done.
    + intros (s & Hs & _). by destruct (Hno s).
    + intros (s & o & Hs & _). by destruct (Hno s).
    + intros (s & o & Hs & _). by destruct (Hno s).
    + intros other _. by rewrite (generate_question_unusable other req Hno).
Qed.


Lemma safeParse_item_strip (v v' : Value) :
  safeParse ItemSchema v = Some v' → v' = strip_item v.
Proof.
  intros (fields & q & d & -> & Hq & Hd & _ & ->)%safeParse_item.
  unfold strip_item. cbn. by rewrite Hq, Hd.
Qed.

Lemma safeParse_item_stable (v v' : Value) :
  safeParse ItemSchema v = Some v' → safeParse ItemSchema v' = Some v'.
Proof.
  intros (fields & q & d & -> & Hq & Hd & Hin & ->)%safeParse_item.
  apply safeParse_item. by exists [("question", VStr q); ("difficulty", VStr d)], q, d.
Qed.

Lemma parsed_items_strip (items out : list Value) :
  Forall2 (λ x x', safeParse ItemSchema x = Some x') items out →
  out = strip_item <$> items
  ∧ Forall2 (λ x x', safeParse ItemSchema x = Some x') out out.
Proof.
  induction 1 as [|x x' items out Hx _ [IH1 IH2]]; [by split; constructor|].
  split.
  - cbn. f_equal; [by apply safeParse_item_strip | done].
  - constructor; [by eapply safeParse_item_stable | done].
Qed.

Lemma validator_stable (v data : Value) :
  safeParse QuestionSchema v = Some data →
  ∃ items, data = VObj [("questions", VArr items)] ∧ items ≠ []
           ∧ safeParse QuestionSchema data = Some data.
Proof.
  intros (fields & items & out & -> & Hq & Hne & Hall & ->)%safeParse_QuestionSchema.
  destruct (parsed_items_strip items out Hall) as [Hout Hstable].
  exists out. split; [done|]. split.
  - intros ->. inversion Hall. by subst.
  - apply safeParse_QuestionSchema.
    exists [("questions", VArr out)], out, out. repeat split; try done.
    intros ->. inversion Hall. by subst.
Qed.

(** X2: what the validator hands on is the input list in its order and
    length, each item reduced to its [question] and [difficulty] (members
    outside the schema, of the items and of the envelope, are dropped); and
    validating that output again returns it unchanged. *)
Theorem validator_output_is_stripped_input (v v' : Value) :
  safeParse QuestionSchema v = Some v' →
  (∃ fields items,
     v = VObj fields ∧ get "questions" fields = VArr items
     ∧ v' = VObj [("questions", VArr (strip_item <$> items))])
  ∧ safeParse QuestionSchema v' = Some v'.
Proof.
  intros (fields & items & out & -> & Hq & Hne & Hall & ->)%safeParse_QuestionSchema.
  destruct (parsed_items_strip items out Hall) as [Hout Hstable]. split.
  - exists fields, items. by rewrite Hout.
  - apply safeParse_QuestionSchema.
    exists [("questions", VArr out)], out, out. repeat split; try done.
    intros ->. inversion Hall. by subst.
Qed.

Lemma validator_output_is_stripped_input_witness :
  (∃ fields items,
     annotated_items = VObj fields ∧ get "questions" fields = VArr items
     ∧ two_items = VObj [("questions", VArr (strip_item <$> items))])
  ∧ safeParse QuestionSchema two_items = Some two_items.
Proof.
  apply (validator_output_is_stripped_input annotated_items two_items).
  reflexivity.
Defined.

Lemma wire_ok (r : Server.Response) (txt : option string) :
  Generation.ok (over_the_wire r txt)
  = (200 <=? Server.status r) && (Server.status r <=? 299).
Proof. reflexivity. Qed.

(** X3: the client and the server agree. Whatever the model does and
    whatever the request is, [fetchAIQuestions] resolves exactly for the
    responses of status 200, then with all the items of the response and at
    least one; for every other response it rejects with a non-empty
    message. *)
Theorem client_accepts_exactly_server_successes
    (invoke : string → option Value) (req : Server.Request)
    (txt : option string) :
  let r := Server.generate_question invoke req in
  let outcome := Generation.fetchAIQuestions_then (over_the_wire r txt) in
  (Server.status r = 200 ∧ outcome = Ok (VArr (Server.questions_of r))
   ∧ Server.questions_of r ≠ [])
  ∨ (Server.status r ≠ 200 ∧ ∃ m, outcome = Throw m ∧ m ≠ "").
Proof.
  intros r outcome. subst r outcome.
  assert (∀ r, Server.status r = 400 ∨ Server.status r = 500
               ∨ Server.status r = 502 →
            Server.status r ≠ 200
            ∧ ∃ m, Generation.fetchAIQuestions_then (over_the_wire r txt)
                   = Throw m ∧ m ≠ "") as Hfail.
  { intros r Hr. split; [lia|].
    unfold Generation.fetchAIQuestions_then. rewrite wire_ok.
    replace ((200 <=? Server.status r) && (Server.status r <=? 299))
      with false by (destruct Hr as [->|[->| ->]]; reflexivity).
    cbn [negb]. eexists. split; [reflexivity|].
    by destruct (String.eqb_spec (default "" (Generation.text (over_the_wire r txt))) ""). }
  destruct (usable_role_dec (requested_role req)) as [[s Hs]|Hno].
  - rewrite (generate_question_usable invoke req s Hs).
    destruct (invoke s) as [out|]; [|right; apply Hfail; cbn; tauto].
    destruct (safeParse QuestionSchema out) as [data|] eqn:Hp;
      [|right; apply Hfail; cbn; tauto].
    left. split; [done|].
    destruct (validator_stable out data Hp) as (items & -> & Hne & Hstable).
    unfold Generation.fetchAIQuestions_then, over_the_wire.
    cbn [Generation.ok Generation.json Server.status Server.json Z.leb
         Z.compare andb negb Pos.compare Pos.compare_cont].
    rewrite Hstable. done.
  - rewrite (generate_question_unusable invoke req Hno).
    right. apply Hfail. cbn. tauto.
Qed.

(** ** More on the request de-duplicator *)

Lemma step_keeps_settled
    (st : Generation.State) (e : Generation.Event) (p : nat)
    (pr : Generation.Promise) :
  Generation.promises st !! p = Some pr → pr ≠ Generation.Pending →
  Generation.promises (Generation.step st e) !! p = Some pr.
Proof.
  intros Hp Hpr. destruct e as [r|p' res]; cbn [Generation.step].
  - destruct (Generation.questionPromiseCache st !! r) as [q|] eqn:Hr.
    + by rewrite (getQuestionPromise_hit r q st Hr).
    + rewrite (getQuestionPromise_miss r st Hr). cbn.
      by apply lookup_app_l_Some.
  - unfold Generation.settle.
    destruct (Generation.promises st !! p') as [[| |]|] eqn:Hp'; try done.
    cbn. rewrite list_lookup_insert_ne; [done|]. intros ->. congruence.
Qed.

Lemma run_keeps_settled
    (evs : list Generation.Event) (st : Generation.State) (p : nat)
    (pr : Generation.Promise) :
  Generation.promises st !! p = Some pr → pr ≠ Generation.Pending →
  Generation.promises (Generation.run evs st) !! p = Some pr.
Proof.
  revert st. induction evs as [|e evs IH]; intros st Hp Hpr; [done|].
  cbn. apply IH; [|done]. by apply step_keeps_settled.
Qed.

(** X4: a settled generation is final. Once the promise cached for a job
    role is fulfilled or rejected, no later call or network answer changes
    its outcome, and every later call for that role returns this promise
    without touching the state: in particular a failed generation is never
    tried again. *)
Theorem settled_generation_is_final
    (evs : list Generation.Event) (st : Generation.State) (r : string)
    (p : nat) (pr : Generation.Promise) :
  Generation.questionPromiseCache st !! r = Some p →
  Generation.promises st !! p = Some pr → pr ≠ Generation.Pending →
  let st' := Generation.run evs st in
  Generation.promises st' !! p = Some pr
  ∧ Generation.getQuestionPromise r st' = (Some p, st')
  ∧ Generation.requests (snd (Generation.getQuestionPromise r st'))
    = Generation.requests st'.
Proof.
  intros Hr Hp Hpr st'. split; [by apply run_keeps_settled|].
  rewrite (getQuestionPromise_hit r p st'); [done|].
  by apply run_keeps_entry.
Qed.

Lemma settled_generation_is_final_witness :
  let st := Generation.run
              [Generation.Call "Nurse"; Generation.Settle 0 None]
              Generation.init in
  let st' := Generation.run
               [Generation.Call "Nurse"; Generation.Settle 0 None;
                Generation.Call "Nurse"] st in
  Generation.promises st' !! 0%nat
    = Some (Generation.Rejected "Failed to fetch")
  ∧ Generation.requests st' = ["Nurse"].
Proof.
  destruct (settled_generation_is_final
              [Generation.Call "Nurse"; Generation.Settle 0 None;
               Generation.Call "Nurse"]
              (Generation.run
                 [Generation.Call "Nurse"; Generation.Settle 0 None]
                 Generation.init)
              "Nurse" 0 (Generation.Rejected "Failed to fetch"))
    as (H1 & _ & _).
  - vm_compute. reflexivity.
  - reflexivity.
  - discriminate.
  - split; [exact H1 | vm_compute; reflexivity].
Defined.

(** X5: in every state the module can reach, the promise cached for a job
    role exists in the promise table, belongs to the request sent for that
    very role, and is shared with no other role; there are exactly as many
    promises as requests. *)
Theorem cached_promises_are_per_role
    (evs : list Generation.Event) (r r' : string) (p : nat) :
  let st := Generation.run evs Generation.init in
  length (Generation.promises st) = length (Generation.requests st)
  ∧ (Generation.questionPromiseCache st !! r = Some p →
       is_Some (Generation.promises st !! p)
       ∧ Generation.requests st !! p = Some r
       ∧ (Generation.questionPromiseCache st !! r' = Some p → r' = r)).
Proof.
  intros st.
  destruct (cache_inv_run evs Generation.init cache_inv_init) as [Hlen Hinv].
  fold st in Hlen, Hinv. split; [done|]. intros Hr.
  pose proof (proj1 (Hinv r p) Hr) as Hreq. split; [|split; [done|]].
  - apply lookup_lt_is_Some. rewrite Hlen. by eapply lookup_lt_Some.
  - intros Hr'. apply Hinv in Hr'. congruence.
Qed.

(** ** The question management page *)

Lemma filter_sublist {A} (f : A → bool) (l : list A) :
  List.filter f l `sublist_of` l.
Proof.
  induction l as [|x l IH]; cbn; [constructor|].
  destruct (f x); by constructor.
Qed.

Lemma filter_comm {A} (f g : A → bool) (l : list A) :
  List.filter f (List.filter g l) = List.filter g (List.filter f l).
Proof.
  induction l as [|x l IH]; [done|]. cbn.
  destruct (g x) eqn:Hg, (f x) eqn:Hf; cbn; rewrite ?Hg, ?Hf, IH; done.
Qed.

Section Page.

Import QuestionsPage.

Context (net : nat → bool) (interviewId : Z) (interviewJobRole : option string).

#[local] Abbreviation rows := (rows_of_interview interviewId).
#[local] Abbreviation apply_op := (QuestionsPage.apply_op net interviewId interviewJobRole).
#[local] Abbreviation runp := (QuestionsPage.run net interviewId interviewJobRole).
#[local] Abbreviation addAIQuestion := (QuestionsPage.addAIQuestion net interviewId).
#[local] Abbreviation generateAIQuestions :=
  (QuestionsPage.generateAIQuestions interviewJobRole).

Lemma resume_keeps (p : Page) :
  backend (generateAIQuestions_resume p) = backend p
  ∧ questions (ui (generateAIQuestions_resume p)) = questions (ui p)
  ∧ gen (generateAIQuestions_resume p) = gen p.
Proof.
  unfold generateAIQuestions_resume.
  destruct (awaiting (ui p)) as [h|]; [|done].
  by destruct (Generation.promises (gen p) !! h) as [[| |]|].
Qed.

Lemma generate_keeps (p : Page) :
  backend (generateAIQuestions p) = backend p
  ∧ questions (ui (generateAIQuestions p)) = questions (ui p).
Proof.
  unfold QuestionsPage.generateAIQuestions. destruct (no_job_role _); [done|].
  destruct (Generation.getQuestionPromise _ _) as [h g].
  destruct (resume_keeps
              (with_gen g
                 (with_ui (λ u, suspend_on h
                             (setGenerationError None (setGenerating true u)))
                    p))) as (-> & -> & _).
  done.
Qed.

(** X7: a handler that runs on its own keeps the page in step. When the
    list shown equals the rows the store holds for this interview and the
    store accepts every request, then the load on mount, the add of a
    suggestion, a delete (confirmed or not), a click on generate or a
    settled generation, run from start to completion with no other handler
    of the page in between, leaves the list shown equal to the store's rows
    again. *)
Theorem handler_on_its_own_keeps_list_in_step (o : Op) (p : Page) :
  (∀ n, net n = true) →
  questions (ui p) = rows (backend p) →
  questions (ui (apply_op p o)) = rows (backend (apply_op p o)).
Proof.
  intros Hnet Hp. destruct o as [| |h res|t d|q c];
    cbn [QuestionsPage.apply_op].
  - unfold fetchQuestions, getQuestionsByInterview.
    destruct (interviewId =? 0); [done|]. by rewrite Hnet.
  - destruct (_ || _); [done|].
    by destruct (generate_keeps p) as [-> ->].
  - unfold settle.
    by destruct (resume_keeps (with_gen (Generation.settle h res (gen p)) p))
      as (-> & -> & _).
  - unfold QuestionsPage.addAIQuestion, createQuestion, getQuestionsByInterview.
    rewrite Hnet. cbn. by rewrite Hnet.
  - unfold handleDeleteQuestion, deleteQuestion. destruct c; [|done].
    rewrite Hnet. cbn. unfold rows_of_interview. cbn.
    rewrite filter_comm. f_equal. exact Hp.
Qed.

(** X8: adding a suggestion, both requests accepted. The store gains
    exactly one row, with this interview, the text and the difficulty of the
    suggestion; the list shown is reloaded from the store and ends with
    that row; every suggestion with that text (whatever its difficulty)
    leaves the suggestions, the others stay in their order; nothing is
    alerted. *)
Theorem add_suggestion_accepted (t d : string) (p : Page) :
  net (sent (backend p)) = true → net (S (sent (backend p))) = true →
  let p' := addAIQuestion t d p in
  let row := {| id := next_id (backend p); interview_id := interviewId;
                question := t; difficulty := d;
                username := Interview.USERNAME |} in
  table (backend p') = (table (backend p) ++ [row])%list
  ∧ questions (ui p') = (rows (backend p) ++ [row])%list
  ∧ aiQuestions (ui p') = List.filter (other_text t) (aiQuestions (ui p))
  ∧ (∀ q, In q (aiQuestions (ui p')) →
       In q (aiQuestions (ui p))
       ∧ Server.optional_member q "question" ≠ VStr t)
  ∧ aiQuestions (ui p') `sublist_of` aiQuestions (ui p)
  ∧ alerts (ui p') = alerts (ui p).
Proof.
  intros H1 H2. cbv zeta.
  unfold QuestionsPage.addAIQuestion, createQuestion, getQuestionsByInterview.
  rewrite H1. cbn. rewrite H2. cbn.
  split; [done|]. split.
  - rewrite List.filter_app. cbn. by rewrite Z.eqb_refl.
  - split; [done|]. split; [|split; [apply filter_sublist | done]].
    intros q [Hin Hf]%List.filter_In. split; [done|].
    unfold other_text in Hf. intros Heq. rewrite Heq in Hf.
    by rewrite String.eqb_refl in Hf.
Qed.

(** X9: adding a suggestion when the create is accepted and the reload
    that follows fails. The question has been created in the store, yet the
    page alerts that adding failed, still shows the old list and still
    offers the suggestion. *)
Theorem add_suggestion_reload_fails (t d : string) (p : Page) :
  net (sent (backend p)) = true → net (S (sent (backend p))) = false →
  let p' := addAIQuestion t d p in
  table (backend p') =
    (table (backend p)
       ++ [{| id := next_id (backend p); interview_id := interviewId;
              question := t; difficulty := d;
              username := Interview.USERNAME |}])%list
  ∧ questions (ui p') = questions (ui p)
  ∧ aiQuestions (ui p') = aiQuestions (ui p)
  ∧ alerts (ui p')
    = (alerts (ui p) ++ ["Failed to add question. Please try again."])%list.
Proof.
  intros H1 H2. cbv zeta.
  unfold QuestionsPage.addAIQuestion, createQuestion, getQuestionsByInterview.
  rewrite H1. cbn. rewrite H2. by cbn.
Qed.

(** X10: suggestions already generated for the job role are replayed from
    the cache. When the promise cached for the role of the page is settled
    and no generation is running, a click on generate sends no request and
    changes nothing in the module state; a fulfilled promise shows its
    items and clears the error, a rejected one shows its message (or the
    default one when the message is empty) and keeps the suggestions. *)
Theorem generate_replays_settled_promise
    (r : string) (h : nat) (pr : Generation.Promise) (p : Page) :
  interviewJobRole = Some r → r ≠ "" →
  generating (ui p) = false →
  Generation.questionPromiseCache (gen p) !! r = Some h →
  Generation.promises (gen p) !! h = Some pr → pr ≠ Generation.Pending →
  let p' := apply_op p Generate in
  gen p' = gen p ∧ backend p' = backend p
  ∧ generating (ui p') = false
  ∧ match pr with
    | Generation.Fulfilled v =>
        aiQuestions (ui p') = items_of v ∧ generationError (ui p') = None
    | Generation.Rejected m =>
        aiQuestions (ui p') = aiQuestions (ui p)
        ∧ generationError (ui p')
          = Some (if String.eqb m "" then "Failed to generate questions"
                  else m)
    | Generation.Pending => False
    end.
Proof.
  intros Hrole Hne Hgen Hr Hh Hpr. cbv zeta. cbn [QuestionsPage.apply_op].
  unfold QuestionsPage.generateAIQuestions, no_job_role. rewrite Hgen, Hrole.
  destruct (String.eqb_spec r "") as [|_]; [done|]. cbn [orb].
  change (default "" (Some r)) with r.
  rewrite (getQuestionPromise_hit r h (gen p) Hr).
  unfold generateAIQuestions_resume. cbn. rewrite Hh.
  destruct pr as [|v|m]; [done| |]; cbn; by destruct (gen p).
Qed.

Lemma page_keeps_requests (o : Op) (p : Page) :
  no_job_role interviewJobRole = true →
  Generation.requests (gen (apply_op p o)) = Generation.requests (gen p)
  ∧ Generation.questionPromiseCache (gen (apply_op p o))
    = Generation.questionPromiseCache (gen p).
Proof.
  intros Hno. destruct o as [| |h res|t d|q c]; cbn [QuestionsPage.apply_op].
  - unfold fetchQuestions, getQuestionsByInterview.
    destruct (interviewId =? 0); [done|].
    by destruct (net (sent (backend p))).
  - by rewrite Hno, orb_true_r.
  - unfold settle.
    destruct (resume_keeps (with_gen (Generation.settle h res (gen p)) p))
      as (_ & _ & ->).
    cbn. by destruct (settle_cache h res (gen p)) as (-> & -> & _).
  - unfold QuestionsPage.addAIQuestion, createQuestion, getQuestionsByInterview.
    destruct (net (sent (backend p))); cbn; [|done].
    by destruct (net (S (sent (backend p)))).
  - unfold handleDeleteQuestion, deleteQuestion. destruct c; [|done].
    by destruct (net (sent (backend p))).
Qed.

(** X19: a page without a job role never asks the generation server.
    When the interview has no job role (undefined or empty), whatever
    happens on the page no generation request is sent and no cache entry is
    made. *)
Theorem no_job_role_never_asks (ops : list Op) (p : Page) :
  no_job_role interviewJobRole = true →
  Generation.requests (gen (runp ops p)) = Generation.requests (gen p)
  ∧ Generation.questionPromiseCache (gen (runp ops p))
    = Generation.questionPromiseCache (gen p).
Proof.
  intros Hno. revert p. induction ops as [|o ops IH]; intros p; [done|].
  change (runp (o :: ops) p) with (runp ops (apply_op p o)).
  destruct (IH (apply_op p o)) as [-> ->].
  by apply page_keeps_requests.
Qed.

Lemma delete_split_composes (q : Z) (p : Page) :
  QuestionsAsync.delete_resume
    (fst (QuestionsAsync.delete_click net q p))
    (snd (QuestionsAsync.delete_click net q p))
  = handleDeleteQuestion net q true p.
Proof.
  unfold QuestionsAsync.delete_click, QuestionsAsync.delete_resume,
    handleDeleteQuestion, deleteQuestion.
  by destruct (net (sent (backend p))).
Qed.


End Page.

(** ** More on the session walk *)

Section WalkMore.

Import Interview.

Context (interviewId applicantId : Z) (questions : list Question).
Context (net : nat → bool).

#[local] Abbreviation goToNextQuestion :=
  (Interview.goToNextQuestion interviewId applicantId questions net).
#[local] Abbreviation handle :=
  (Interview.handle interviewId applicantId questions net).
#[local] Abbreviation run := (Interview.run interviewId applicantId questions net).
#[local] Abbreviation currentQuestionIndex :=
  (Interview.currentQuestionIndex questions).
#[local] Abbreviation isLastQuestion := (Interview.isLastQuestion questions).
#[local] Abbreviation question_screen := (Interview.question_screen questions).
#[local] Abbreviation answer_of := (Props.answer_of interviewId applicantId).
#[local] Abbreviation the_patch := (Props.the_patch applicantId).
#[local] Abbreviation click_result :=
  (click_next_result interviewId applicantId questions net).

Lemma rerender_speech (before after : World) :
  listening (speech (rerender before after)) = listening (speech after)
  ∧ (isPaused (comp after) = true →
     isPaused (comp (rerender before after)) = true).
Proof.
  unfold rerender. destruct (route after) as [|q'|] eqn:Hr; try done.
  by destruct (same_question (route before) q' && _).
Qed.

Lemma rerender_fresh (before after : World) (q' : Z) :
  route after = QuestionRoute q' →
  same_question (route before) q' = false
  ∨ answers_identity (comp before) ≠ answers_identity (comp after) →
  transcript (speech (rerender before after)) = ""
  ∧ isPaused (comp (rerender before after)) = true.
Proof.
  intros Hr Hchanged. unfold rerender. rewrite Hr.
  destruct Hchanged as [->|Hid]; [done|].
  apply Nat.eqb_neq in Hid. rewrite Hid, andb_false_r. done.
Qed.

#[local] Abbreviation submission :=
  (Submission.submission interviewId applicantId questions net).
#[local] Abbreviation begin := (Submission.begin interviewId applicantId).
#[local] Abbreviation resume_submit :=
  (Submission.resume_submit interviewId applicantId questions net).
#[local] Abbreviation resume_status :=
  (Submission.resume_status applicantId questions net).

Ltac open_submission :=
  unfold Submission.begin, Submission.resume_submit,
    Submission.resume_status, Submission.on_error, Submission.leave,
    Submission.receive, Submission.send, Submission.answerData, exec,
    Interview.goToNextQuestion, handlePauseRecording, try_catch_finally,
    submitApplicantAnswer, updateApplicantStatus, apiRequest, when, mbind,
    M_bind, bind, setSubmitting, setIsPaused, setAnswers, stopListening,
    set_listening, alert, navigate, modify, ret, throw.

(** The pieces of the handler, run one after the other with nothing in
    between, are [goToNextQuestion]. *)
Lemma submission_pieces_compose (q : Z) (w : World) :
  let k := fst (begin q w) in
  let w1 := snd (begin q w) in
  let w2 := fst (resume_submit k w1) in
  (if snd (resume_submit k w1) then resume_status k w2 else w2)
  = exec (goToNextQuestion q) w.
Proof.
  cbv zeta. open_submission.
  destruct (listening (speech w)) eqn:Hl; cbn;
    destruct (net (length (calls w))) eqn:Hn; cbn;
    destruct (Interview.isLastQuestion questions q) eqn:Hlast; cbn;
    rewrite ?length_app, ?Nat.add_1_r; cbn;
    try (destruct (net (S (length (calls w)))) eqn:Hn'; cbn);
    try (destruct (at_index questions (currentQuestionIndex q + 1)); cbn);
    reflexivity.
Qed.

(** The page at the first suspension. *)
Lemma begin_page (q : Z) (w : World) :
  let w1 := snd (begin q w) in
  Submission.questionId (fst (begin q w)) = q
  ∧ route w1 = route w
  ∧ answers_identity (comp w1) = answers_identity (comp w)
  ∧ listening (speech w1) = false
  ∧ transcript (speech w1) = transcript (speech w)
  ∧ (∀ q', question_screen q' w1 = question_screen q' w)
  ∧ isPaused (comp w1) = listening (speech w) || isPaused (comp w).
Proof.
  cbv zeta. open_submission. unfold Interview.question_screen.
  destruct (listening (speech w)) eqn:Hl; cbn; by rewrite ?Hl.
Qed.

Lemma rerender_screen (before after : World) (q : Z) :
  question_screen q (rerender before after) = question_screen q after.
Proof.
  unfold rerender, Interview.question_screen.
  destruct (route after) as [|q'|]; [done| |done].
  by destruct (same_question (route before) q' && _).
Qed.

Lemma resume_submit_not_last (k : Submission.Closure) (next : Question)
    (x : World) :
  isLastQuestion (Submission.questionId k) = false →
  at_index questions (currentQuestionIndex (Submission.questionId k) + 1)
  = Some next →
  snd (resume_submit k x) = false
  ∧ route (fst (resume_submit k x)) = QuestionRoute (id next)
  ∧ speech (fst (resume_submit k x)) = speech x.
Proof.
  intros Hlast Hnext. open_submission.
  destruct (net (Submission.request k)); cbn; rewrite Hlast; cbn;
    rewrite Hnext; done.
Qed.

Lemma rerender_self (w x : World) :
  route x = route w →
  answers_identity (comp x) = answers_identity (comp w) →
  rerender w x = x.
Proof.
  intros Hr Hi. unfold rerender. rewrite <- Hr, <- Hi.
  destruct (route x) as [|q'|]; [done| |done].
  cbn. by rewrite Z.eqb_refl, Nat.eqb_refl.
Qed.

Lemma rerender_from (before before' after : World) :
  route before = route before' →
  answers_identity (comp before) = answers_identity (comp before') →
  rerender before after = rerender before' after.
Proof. intros Hr Hi. unfold rerender. by rewrite Hr, Hi. Qed.

(** While the engine is stopped, an event that presses neither start nor
    continue nor "next" changes nothing on a question screen. *)
Lemma calm_idle (e : Event) (x : World) :
  Submission.calm e = true → listening (speech x) = false →
  route x ≠ Welcome → handle x e = x.
Proof.
  intros He Hl Hr. destruct e; try done; cbn [Interview.handle].
  - by destruct (route x).
  - unfold recording_click, getRecordingButton. rewrite Hl.
    destruct (route x); [done| |done].
    destruct (Interview.question_screen questions _ x); [|done].
    by destruct (isPaused (comp x)), (truthy (VStr (transcript (speech x)))).
  - unfold exec, hear. by rewrite Hl.
Qed.

Lemma calm_run (during : list Event) (x : World) :
  Forall (λ e, Submission.calm e = true) during →
  listening (speech x) = false → route x ≠ Welcome →
  run during x = x.
Proof.
  intros Hall Hl Hr. induction Hall as [|e during He _ IH]; [done|].
  cbn. rewrite (calm_idle e x He Hl Hr). exact IH.
Qed.

(** Left alone, the suspended handler of a question that is not the last
    does what the handler run in one piece does. *)
Lemma submission_undisturbed
    (q : Z) (during during' : list Event) (w : World) :
  isLastQuestion q = false → route w ≠ Welcome →
  Forall (λ e, Submission.calm e = true) during →
  submission q during during' w = rerender w (exec (goToNextQuestion q) w).
Proof.
  intros Hlast Hr Hcalm.
  pose proof (submission_pieces_compose q w) as Hpieces.
  destruct (begin_page q w) as (Hk & Hro & Hid & Hl & _).
  cbv zeta in Hpieces. unfold Submission.submission.
  destruct (begin q w) as [k w1]. cbn [fst snd] in *.
  rewrite (rerender_self w w1 Hro Hid).
  rewrite (calm_run during w1 Hcalm Hl) by congruence.
  assert (snd (resume_submit k w1) = false) as Hdone.
  { open_submission. rewrite Hk.
    destruct (net (Submission.request k)); cbn; by rewrite ?Hlast. }
  destruct (resume_submit k w1) as [w3 suspended]. cbn [fst snd] in *.
  subst suspended. rewrite <- Hpieces. by apply rerender_from.
Qed.

(** X11: the next question starts fresh when the recording is left alone
    while the answer is submitted. On a rendered question with a successor
    and pairwise distinct ids, a click on "next" during whose submission
    neither the start nor the continue button is pressed lands (the
    submission accepted or not) on the successor with an empty transcript,
    the engine stopped, paused, and the start button offered: what was said
    on the previous question is gone either way. *)
Theorem next_question_starts_fresh_when_left_alone
    (k : nat) (q next : Question) (during during' : list Event) (w : World) :
  NoDup (id <$> questions) →
  questions !! k = Some q → questions !! S k = Some next →
  route w = QuestionRoute (id q) → question_screen (id q) w = true →
  submitting (comp w) = false →
  Forall (λ e, Submission.calm e = true) during →
  let w' := submission (id q) during during' w in
  route w' = QuestionRoute (id next)
  ∧ transcript (speech w') = ""
  ∧ listening (speech w') = false
  ∧ isPaused (comp w') = true
  ∧ getRecordingButton w' = Some StartButton.
Proof.
  intros Hnd Hq Hnext Hr Hs Hsub Hcalm w'.
  pose proof (currentQuestionIndex_at questions k q Hnd Hq) as Hidx.
  assert (isLastQuestion (id q) = false) as Hlast.
  { unfold Interview.isLastQuestion. rewrite Hidx. apply Z.eqb_neq.
    apply lookup_lt_Some in Hnext. lia. }
  assert (id next ≠ id q) as Hne.
  { intros Heq. assert (S k = k); [|lia].
    apply (NoDup_lookup (id <$> questions) (S k) k (id q)); [done| |].
    - by rewrite list_lookup_fmap, Hnext, <- Heq.
    - by rewrite list_lookup_fmap, Hq. }
  unfold w'.
  rewrite (submission_undisturbed (id q) during during' w Hlast)
    by (done || congruence).
  set (after := exec (goToNextQuestion (id q)) w).
  destruct (goToNextQuestion_result interviewId applicantId questions net
              (id q) w) as (_ & _ & _ & Gro & _ & Gl & _).
  fold after in Gro, Gl. rewrite Hlast, Hidx in Gro.
  replace (Z.of_nat k + 1) with (Z.of_nat (S k)) in Gro by lia.
  rewrite at_index_nat, Hnext in Gro.
  destruct (rerender_same_page w after) as (_ & Hro & _).
  destruct (rerender_fresh w after (id next)) as [Ht Hp]; [done| |].
  { left. rewrite Hr. cbn. by apply Z.eqb_neq. }
  destruct (rerender_speech w after) as [Hl _].
  assert (listening (speech (rerender w after)) = false) as Hl'
    by congruence.
  repeat split; try done; [congruence|].
  unfold getRecordingButton. by rewrite Hl', Hp, Ht.
Qed.

(** On a question screen whose engine is stopped and whose page is paused,
    the recording button on screen starts the engine. *)
Lemma resume_recording_starts (q : Z) (x : World) :
  route x = QuestionRoute q → question_screen q x = true →
  listening (speech x) = false → isPaused (comp x) = true →
  handle x (Submission.resume_recording x) = exec handleStartRecording x.
Proof.
  intros Hr Hs Hl Hp. unfold Submission.resume_recording.
  destruct (truthy (VStr (transcript (speech x)))) eqn:Ht;
    cbn [Interview.handle]; unfold recording_click, getRecordingButton;
    rewrite Hr, Hs, Hl, Hp, Ht; done.
Qed.

(** X15: resuming the recording while the answer is submitted strands the
    capture. The recording buttons stay enabled while [goToNextQuestion]
    awaits its request. On a rendered question with a successor and
    pairwise distinct ids, recording or paused, when the applicant clicks
    "next" and then, before the submission is answered, presses the
    recording button on screen (start with an empty transcript, continue
    otherwise), the page lands (the submission accepted or not) on the
    rendered successor with the engine listening and the page paused: no
    recording button is offered there, and what is said next is captured
    all the same. *)
Theorem recording_resumed_during_submission
    (k : nat) (q next : Question) (during' : list Event) (w : World) :
  NoDup (id <$> questions) →
  questions !! k = Some q → questions !! S k = Some next →
  route w = QuestionRoute (id q) → question_screen (id q) w = true →
  submitting (comp w) = false →
  listening (speech w) = true ∨ isPaused (comp w) = true →
  let w' := submission (id q) [Submission.resume_recording w] during' w in
  route w' = QuestionRoute (id next)
  ∧ question_screen (id next) w' = true
  ∧ listening (speech w') = true
  ∧ isPaused (comp w') = true
  ∧ getRecordingButton w' = None
  ∧ ∀ words, transcript (speech (handle w' (Speak words))) = words.
Proof.
  intros Hnd Hq Hnext Hr Hs Hsub Hcapture w'.
  pose proof (currentQuestionIndex_at questions k q Hnd Hq) as Hidx.
  assert (isLastQuestion (id q) = false) as Hlast.
  { unfold Interview.isLastQuestion. rewrite Hidx. apply Z.eqb_neq.
    apply lookup_lt_Some in Hnext. lia. }
  assert (at_index questions (currentQuestionIndex (id q) + 1) = Some next)
    as Hat.
  { rewrite Hidx. replace (Z.of_nat k + 1) with (Z.of_nat (S k)) by lia.
    by rewrite at_index_nat. }
  assert (id next ≠ id q) as Hne.
  { intros Heq. assert (S k = k); [|lia].
    apply (NoDup_lookup (id <$> questions) (S k) k (id q)); [done| |].
    - by rewrite list_lookup_fmap, Hnext, <- Heq.
    - by rewrite list_lookup_fmap, Hq. }
  assert (question_screen (id next) w = true) as Hs'.
  { unfold Interview.question_screen in *.
    apply andb_true_iff in Hs as [Hs Hm]. apply andb_true_iff in Hs as [_ Hb].
    rewrite Hb, Hm, !andb_true_r. apply bool_decide_eq_true.
    unfold Interview.currentQuestion.
    rewrite (currentQuestionIndex_at questions (S k) next Hnd Hnext).
    by rewrite at_index_nat, Hnext. }
  destruct (begin_page (id q) w) as (Hk & Hro & Hid & Hl & Ht & Hscr & Hp).
  subst w'. unfold Submission.submission.
  destruct (begin (id q) w) as [c w1]. cbn [fst snd] in *.
  rewrite (rerender_self w w1 Hro Hid). cbn [Interview.run foldl].
  assert (Submission.resume_recording w = Submission.resume_recording w1)
    as -> by (unfold Submission.resume_recording; by rewrite Ht).
  rewrite (resume_recording_starts (id q) w1); try congruence;
    [|rewrite Hp; destruct Hcapture as [->| ->]; by rewrite ?orb_true_r].
  set (w2 := exec handleStartRecording w1).
  assert (route w2 = QuestionRoute (id q)) as Hro2 by (by rewrite <- Hr, <- Hro).
  assert (listening (speech w2) = true) as Hl2 by done.
  rewrite <- Hk in Hlast, Hat.
  destruct (resume_submit_not_last c next w2 Hlast Hat) as (Hdone & Hro3 & Hsp3).
  destruct (resume_submit c w2) as [w3 suspended]. cbn [fst snd] in *.
  subst suspended.
  destruct (rerender_same_page w2 w3) as (_ & Hro4 & _).
  destruct (rerender_fresh w2 w3 (id next)) as [Ht4 Hp4]; [done| |].
  { left. rewrite Hro2. cbn. by apply Z.eqb_neq. }
  destruct (rerender_speech w2 w3) as [Hl4 _].
  assert (listening (speech (rerender w2 w3)) = true) as Hl4'
    by (by rewrite Hl4, Hsp3).
  assert (question_screen (id next) (rerender w2 w3) = true) as Hscr4.
  { rewrite rerender_screen. unfold Interview.question_screen.
    rewrite Hsp3. change (question_screen (id next) w1 = true).
    by rewrite Hscr. }
  split; [congruence|]. split; [done|].
  split; [done|]. split; [done|]. split.
  - unfold getRecordingButton. by rewrite Hl4', Hp4.
  - intros words. cbn [Interview.handle]. unfold exec, hear.
    rewrite Hl4'. cbn. by rewrite Ht4.
Qed.

(** X12: a failed submission loses the answer. On a rendered question that
    is not the last, with pairwise distinct ids, when the request that
    submits the answer fails, the store is left as it was, the one alert
    asks to try again, and the page is nevertheless on the next question
    with an empty transcript. *)
Theorem failed_submission_discards_answer
    (k : nat) (q next : Question) (w : World) :
  NoDup (id <$> questions) →
  questions !! k = Some q → questions !! S k = Some next →
  route w = QuestionRoute (id q) → question_screen (id q) w = true →
  submitting (comp w) = false →
  net (length (calls w)) = false →
  let w' := handle w ClickNext in
  store w' = store w
  ∧ calls w' =
      (calls w ++ [PostAnswer (answer_of (id q) (transcript (speech w)))])%list
  ∧ alerts w' = (alerts w ++ [save_error])%list
  ∧ route w' = QuestionRoute (id next)
  ∧ currentQuestionIndex (id next) = Z.of_nat (S k).
Proof.
  intros Hnd Hq Hnext Hr Hs Hsub Hnet w'.
  pose proof (currentQuestionIndex_at questions k q Hnd Hq) as Hidx.
  assert (isLastQuestion (id q) = false) as Hlast.
  { unfold Interview.isLastQuestion. rewrite Hidx. apply Z.eqb_neq.
    apply lookup_lt_Some in Hnext. lia. }
  destruct (click_result (id q) w Hr Hs Hsub) as (Gc & Gst & Ga & Gro & _).
  fold w' in Gc, Gst, Ga, Gro. rewrite Hnet in Gc, Gst, Ga.
  rewrite Hlast, Hidx in Gro.
  replace (Z.of_nat k + 1) with (Z.of_nat (S k)) in Gro by lia.
  rewrite at_index_nat, Hnext in Gro. cbn [andb] in Gc, Ga.
  repeat split; try done.
  by apply currentQuestionIndex_at.
Qed.

(** X13: when the last answer is stored but the status update that follows
    fails, the page alerts that saving the answer failed although the
    answer row is in the store, the applicant's row is unchanged, and the
    page shows the completion screen. *)
Theorem status_update_failure_after_last_answer (q : Z) (w : World) :
  route w = QuestionRoute q → question_screen q w = true →
  submitting (comp w) = false → isLastQuestion q = true →
  net (length (calls w)) = true → net (S (length (calls w))) = false →
  let w' := handle w ClickNext in
  applicant_answer (store w') =
    (applicant_answer (store w)
       ++ [(answer_of q (transcript (speech w)), USERNAME)])%list
  ∧ applicant (store w') = applicant (store w)
  ∧ calls w' =
      (calls w ++ [PostAnswer (answer_of q (transcript (speech w)));
                   the_patch])%list
  ∧ alerts w' = (alerts w ++ [save_error])%list
  ∧ route w' = Complete
  ∧ notice w' = Some InterviewComplete_notice.
Proof.
  intros Hr Hs Hsub Hlast Hn Hn' w'.
  destruct (click_result q w Hr Hs Hsub) as (Gc & Gst & Ga & Gro & _).
  fold w' in Gc, Gst, Ga, Gro. rewrite Hn, Hlast in *. rewrite Hn' in *.
  cbn [andb orb negb] in Gc, Gst, Ga.
  rewrite Gst. repeat split; try done.
  unfold notice. by rewrite Gro.
Qed.

#[local] Abbreviation reached := (Behaviour.reached questions).

Lemma reached_step (s0 : Store) (k : nat) (r : list Event) (w : World) :
  NoDup (id <$> questions) → (k < length questions)%nat →
  Forall (λ e, not_next e = true) r →
  reached s0 k w → reached s0 (S k) (run (r ++ [ClickNext]) w).
Proof.
  intros Hnd Hk Hr (Hro & Hsub & Hb & Hm & Hlen & Hrows & Hgate).
  unfold Behaviour.reached.
  destruct (lookup_lt_is_Some_2 questions k Hk) as [q Hq].
  rewrite Hq in Hro.
  rewrite (run_app interviewId applicantId questions net).
  set (w1 := run r w).
  destruct (run_not_next interviewId applicantId questions net r w Hr)
    as ((Hst1 & Hc1 & Ha1 & Hb1 & Hm1) & Hr1 & Hsub1 & _);
    [by rewrite Hro|].
  fold w1 in Hst1, Hc1, Ha1, Hb1, Hm1, Hr1, Hsub1.
  pose proof (currentQuestionIndex_at questions k q Hnd Hq) as Hidx.
  assert (question_screen (id q) w1 = true) as Hs1.
  { unfold Interview.question_screen, Interview.currentQuestion.
    rewrite Hidx, at_index_nat, Hq, Hb1, Hm1, Hb, Hm.
    by rewrite bool_decide_eq_true_2. }
  change (run [ClickNext] w1) with (handle w1 ClickNext).
  destruct (click_result (id q) w1)
    as (Gc & Gst & Ga & Gro & Gsub & Gb & Gm);
    [congruence | done | congruence |].
  assert (isLastQuestion (id q) = bool_decide (S k = length questions))
    as Hlast.
  { unfold Interview.isLastQuestion. rewrite Hidx.
    destruct (decide (S k = length questions)) as [He|He].
    - rewrite bool_decide_eq_true_2 by done. apply Z.eqb_eq. lia.
    - rewrite bool_decide_eq_false_2 by done. apply Z.eqb_neq. lia. }
  destruct Hgate as [Hgate|Hgate]; [|lia].
  rewrite Hlast in Gc, Gst, Gro.
  split; [|split; [done|split; [congruence|split; [congruence|]]]].
  - rewrite Gro, Hidx.
    replace (Z.of_nat k + 1) with (Z.of_nat (S k)) by lia.
    rewrite at_index_nat.
    destruct (decide (S k = length questions)) as [He|He].
    + rewrite bool_decide_eq_true_2 by done.
      by rewrite lookup_ge_None_2 by lia.
    + rewrite bool_decide_eq_false_2 by done.
      destruct (lookup_lt_is_Some_2 questions (S k)) as [q' Hq']; [lia|].
      by rewrite Hq'.
  - unfold gate_calls in *.
    rewrite Gc, Gst, gate_count_app, length_app, Hc1, Hst1, Hgate.
    destruct (decide (S k = length questions)) as [He|He];
      [rewrite bool_decide_eq_true_2 by done
      |rewrite bool_decide_eq_false_2 by done];
      destruct (net (length (calls w))); cbn [andb];
      try destruct (net (S (length (calls w))));
      cbn; rewrite ?length_app; cbn; lia.
Qed.

(** X14: the walk ends on the completion screen whatever the store does.
    With N >= 1 questions of pairwise distinct ids, after starting the
    interview and k < N advances the page shows question k, and after N
    advances the completion screen, whichever requests were refused;
    exactly one answer was posted per advance, at most N rows were stored,
    and no status update was sent before the last advance. *)
Theorem walk_completes_whatever_fails
    (s0 : Store) (rounds : list (list Event)) :
  NoDup (id <$> questions) → (1 ≤ length questions)%nat →
  length rounds = length questions →
  Forall (Forall (λ e, not_next e = true)) rounds →
  let after := after_rounds interviewId applicantId questions net s0 rounds in
  let N := length questions in
  (∀ k q, questions !! k = Some q →
     route (after k) = QuestionRoute (id q)
     ∧ length (calls (after k)) = k ∧ gate_calls (after k) = 0%nat)
  ∧ route (after N) = Complete
  ∧ length (calls (after N)) = (N + gate_calls (after N))%nat
  ∧ (length (applicant_answer (store (after N)))
     ≤ length (applicant_answer s0) + N)%nat.
Proof.
  intros Hnd HN Hlen Hrounds after N.
  assert (∀ k, (k ≤ N)%nat → reached s0 k (after k)) as Hreach.
  { induction k as [|k IH]; intros Hk.
    - unfold after, after_rounds. rewrite take_0.
      destruct questions as [|q0 rest] eqn:Hqs; [cbn in HN; lia|].
      cbn [walk_events fmap list_fmap concat Interview.run foldl
           Interview.handle opened route start_disabled length Nat.eqb].
      unfold exec, startInterview, question_effect, resetTranscript,
        set_transcript, setIsPaused, navigate, mbind, M_bind, bind, modify.
      unfold Behaviour.reached. cbn. repeat split; (lia || by left).
    - destruct (lookup_lt_is_Some_2 rounds k) as [r Hr]; [lia|].
      unfold after, after_rounds.
      rewrite (take_S_r _ _ _ Hr), walk_events_snoc.
      rewrite (run_app interviewId applicantId questions net).
      apply reached_step; [done | lia | | apply IH; lia].
      by eapply Forall_lookup_1 in Hrounds. }
  split.
  - intros k q Hq. pose proof (lookup_lt_Some _ _ _ Hq) as Hk.
    destruct (Hreach k) as (Hro & _ & _ & _ & Hl & _ & Hg); [unfold N; lia|].
    rewrite Hq in Hro. destruct Hg as [Hg|Hg]; [|lia].
    rewrite Hg in Hl. repeat split; [done | lia | done].
  - destruct (Hreach N) as (Hro & _ & _ & _ & Hl & Hrows & _); [done|].
    unfold N in Hro at 2. rewrite lookup_ge_None_2 in Hro by done.
    done.
Qed.

(** X16: the caption of the navigation button tells where the click leads.
    On a rendered question that is not being submitted, the button reads
    "Complete Interview" exactly when the click ends on the completion
    screen, and "Next Question" exactly when it leads to the screen of a
    question of the list; this holds whether or not the submission is
    accepted. *)
Theorem next_button_caption_matches_navigation (q : Z) (w : World) :
  route w = QuestionRoute q → question_screen q w = true →
  submitting (comp w) = false →
  let w' := handle w ClickNext in
  (next_button_caption questions q w = "Complete Interview"
   ↔ route w' = Complete)
  ∧ (next_button_caption questions q w = "Next Question"
     ↔ ∃ next, next ∈ questions ∧ route w' = QuestionRoute (id next)).
Proof.
  intros Hr Hs Hsub w'.
  destruct (click_result q w Hr Hs Hsub) as (_ & _ & _ & Gro & _).
  fold w' in Gro. unfold next_button_caption. rewrite Hsub.
  destruct (isLastQuestion q) eqn:Hlast.
  - rewrite Gro. split; [done|]. split; [done|]. by intros (? & _ & ?).
  - destruct (next_exists questions q w Hs Hlast) as [next Hnext].
    rewrite Hnext in Gro. rewrite Gro. split; [done|]. split; [|done].
    intros _. exists next. split; [|done].
    unfold at_index in Hnext. destruct (_ <? 0); [done|].
    by eapply list_elem_of_lookup_2.
Qed.

End WalkMore.

(** ** The request options of app.js *)

Lemma get_assign_eq (key : string) (v : Value) (fields : list (string * Value)) :
  get key (AppJs.assign key v fields) = v.
Proof.
  induction fields as [|[k x] rest IH]; cbn.
  - by rewrite String.eqb_refl.
  - destruct (String.eqb k key) eqn:E; cbn; by rewrite E.
Qed.

Lemma get_assign_ne (key k' : string) (v : Value)
    (fields : list (string * Value)) :
  k' ≠ key → get k' (AppJs.assign key v fields) = get k' fields.
Proof.
  intros Hne. induction fields as [|[k x] rest IH]; cbn.
  - destruct (String.eqb_spec key k'); [congruence|done].
  - destruct (String.eqb_spec k key) as [->|Hk]; cbn.
    + destruct (String.eqb_spec key k'); [congruence|done].
    + destruct (String.eqb_spec k k'); [done|exact IH].
Qed.

(** X17: every body [apiRequest] sends carries the configured username,
    whatever username the caller's object held, and every other member as
    the caller gave it; without a body nothing is sent as body; and the
    header asking for the stored representation is added for POST and PATCH
    only. *)
Theorem request_body_carries_username
    (method : string) (fields : list (string * Value)) :
  (∃ sent,
     AppJs.body (AppJs.request_options method (Some fields)) = Some sent
     ∧ get "username" sent = VStr Interview.USERNAME
     ∧ ∀ k, k ≠ "username" → get k sent = get k fields)
  ∧ AppJs.body (AppJs.request_options method None) = None
  ∧ (In ("Prefer", "return=representation")
        (AppJs.headers (AppJs.request_options method (Some fields)))
     ↔ method = "POST" ∨ method = "PATCH").
Proof.
  split; [|split; [done|]].
  - eexists. split; [reflexivity|]. split.
    + apply get_assign_eq.
    + intros k Hk. by apply get_assign_ne.
  - unfold AppJs.request_options. cbn [AppJs.headers].
    destruct (String.eqb_spec method "POST") as [->|H1]; cbn [orb].
    + split; [by left|]. intros _. cbn. tauto.
    + destruct (String.eqb_spec method "PATCH") as [->|H2].
      * split; [by right|]. intros _. cbn. tauto.
      * split; [|tauto]. cbn. intros [H|[H|H]]; try done;
          discriminate H.
Qed.

(** ** The layout of the interview screens *)

(** X18: what the layout shows after loading. It never stays on the
    spinner; it shows the outlet only if the three requests succeeded and
    both the interview and the applicant response hold a first row, and then
    hands exactly those rows and the question list on; when all requests
    succeed but the interview response is an empty list, rendering throws
    instead of showing the error box; a failed load with a non-empty message
    shows that message; and without the route ids nothing is requested and
    the error box says so. *)
Theorem layout_outlet_needs_both_rows
    (all : Result (Value * Value * Value)) :
  let st := Layout.mount true all Layout.initial in
  Layout.render st ≠ Ok Layout.Loading
  ∧ (∀ t f s ctx, Layout.render st = Ok (Layout.Outlet t f s ctx) →
       ∃ ir ar qr i a,
         all = Ok (ir, ar, qr)
         ∧ Layout.first_of ir = Ok i ∧ Layout.first_of ar = Ok a
         ∧ Layout.nullish i = false ∧ Layout.nullish a = false
         ∧ ctx = (i, a, if truthy qr then qr else VArr []))
  ∧ (∀ ar qr a, all = Ok (VArr [], ar, qr) → Layout.first_of ar = Ok a →
       Layout.render st = Throw "TypeError")
  ∧ (∀ m, all = Throw m → m ≠ "" →
       Layout.render st = Ok (Layout.ErrorBox (VStr m)))
  ∧ Layout.render (Layout.mount false all Layout.initial)
    = Ok (Layout.ErrorBox (VStr "Missing interview / applicant ID")).
Proof.
  cbv zeta. split; [|split; [|split; [|split]]].
  - unfold Layout.mount, Layout.fetchData, Layout.render. cbn.
    destruct (truthy _); [done|]. by repeat case_match.
  - intros t f s ctx. unfold Layout.mount, Layout.fetchData, Layout.render.
    destruct all as [[[ir ar] qr]|m]; cbn.
    + destruct (Layout.first_of ir) as [i|mi] eqn:Hi; cbn.
      * destruct (Layout.first_of ar) as [a|ma] eqn:Ha; cbn.
        -- unfold Layout.member.
           destruct (Layout.nullish i) eqn:Hni; [done|].
           destruct (Layout.nullish a) eqn:Hna; [done|].
           intros [= <- <- <- <-]. by exists ir, ar, qr, i, a.
        -- by destruct (String.eqb ma "").
      * by destruct (String.eqb mi "").
    + by destruct (String.eqb m "").
  - intros ar qr a -> Ha.
    unfold Layout.mount, Layout.fetchData, Layout.render. cbn. by rewrite Ha.
  - intros m -> Hm.
    unfold Layout.mount, Layout.fetchData, Layout.render. cbn.
    by destruct (String.eqb_spec m "").
  - reflexivity.
Qed.

(** ** The properties above on the scenarios *)

Lemma handler_on_its_own_keeps_list_in_step_witness :
  QuestionsPage.questions
    (QuestionsPage.ui
       (QuestionsPage.apply_op accepting 3 (Some "Nurse") two_row_page
          (QuestionsPage.Delete 1 true)))
  = QuestionsPage.rows_of_interview 3
      (QuestionsPage.backend
         (QuestionsPage.apply_op accepting 3 (Some "Nurse") two_row_page
            (QuestionsPage.Delete 1 true))).
Proof.
  apply (handler_on_its_own_keeps_list_in_step accepting 3 (Some "Nurse")).
  - intros n. reflexivity.
  - reflexivity.
Defined.


Lemma add_suggestion_accepted_witness :
  QuestionsPage.aiQuestions
    (QuestionsPage.ui
       (QuestionsPage.addAIQuestion accepting 3
          "Describe a triage decision." "Easy" sample_page))
  = List.filter (QuestionsPage.other_text "Describe a triage decision.")
      (QuestionsPage.aiQuestions (QuestionsPage.ui sample_page))
  ∧ QuestionsPage.alerts
      (QuestionsPage.ui
         (QuestionsPage.addAIQuestion accepting 3
            "Describe a triage decision." "Easy" sample_page))
    = QuestionsPage.alerts (QuestionsPage.ui sample_page).
Proof.
  destruct (add_suggestion_accepted accepting 3
              "Describe a triage decision." "Easy" sample_page)
    as (_ & _ & H3 & _ & _ & H6).
  - reflexivity.
  - reflexivity.
  - split; [exact H3 | exact H6].
Defined.

Lemma add_suggestion_reload_fails_witness :
  QuestionsPage.questions
    (QuestionsPage.ui
       (QuestionsPage.addAIQuestion accepting_first 3
          "Describe a triage decision." "Easy" sample_page))
  = QuestionsPage.questions (QuestionsPage.ui sample_page)
  ∧ QuestionsPage.aiQuestions
      (QuestionsPage.ui
         (QuestionsPage.addAIQuestion accepting_first 3
            "Describe a triage decision." "Easy" sample_page))
    = QuestionsPage.aiQuestions (QuestionsPage.ui sample_page).
Proof.
  destruct (add_suggestion_reload_fails accepting_first 3
              "Describe a triage decision." "Easy" sample_page)
    as (_ & H2 & H3 & _).
  - reflexivity.
  - reflexivity.
  - split; [exact H2 | exact H3].
Defined.

Lemma generate_replays_settled_promise_witness :
  QuestionsPage.gen
    (QuestionsPage.apply_op accepting 3 (Some "Nurse") page_after_failure
       QuestionsPage.Generate)
  = QuestionsPage.gen page_after_failure
  ∧ QuestionsPage.generating
      (QuestionsPage.ui
         (QuestionsPage.apply_op accepting 3 (Some "Nurse") page_after_failure
            QuestionsPage.Generate))
    = false.
Proof.
  destruct (generate_replays_settled_promise accepting 3 (Some "Nurse")
              "Nurse" 0 (Generation.Rejected "Failed to fetch")
              page_after_failure)
    as (H1 & _ & H3 & _).
  - reflexivity.
  - discriminate.
  - reflexivity.
  - vm_compute. reflexivity.
  - reflexivity.
  - discriminate.
  - split; [exact H1 | exact H3].
Defined.

Lemma no_job_role_never_asks_witness :
  Generation.requests
    (QuestionsPage.gen
       (QuestionsPage.run accepting 3 (Some "")
          [QuestionsPage.Generate; QuestionsPage.Settle 0 None] sample_page))
  = Generation.requests (QuestionsPage.gen sample_page)
  ∧ Generation.questionPromiseCache
      (QuestionsPage.gen
         (QuestionsPage.run accepting 3 (Some "")
            [QuestionsPage.Generate; QuestionsPage.Settle 0 None] sample_page))
    = Generation.questionPromiseCache (QuestionsPage.gen sample_page).
Proof.
  apply (no_job_role_never_asks accepting 3 (Some "")).
  reflexivity.
Defined.

Lemma scenario_ids_distinct : NoDup (Interview.id <$> [Q1; Q2]).
Proof. apply (bool_decide_unpack _). vm_compute. exact I. Qed.

Lemma next_question_starts_fresh_when_left_alone_witness :
  Interview.route
    (Submission.submission the_interview the_applicant [Q1; Q2] refusing
       (Interview.id Q1) [Interview.Speak "more"; Interview.ClickPause] []
       (on_first_question refusing))
  = Interview.QuestionRoute (Interview.id Q2)
  ∧ Interview.transcript
      (Interview.speech
         (Submission.submission the_interview the_applicant [Q1; Q2] refusing
            (Interview.id Q1) [Interview.Speak "more"; Interview.ClickPause]
            [] (on_first_question refusing)))
    = "".
Proof.
  destruct (next_question_starts_fresh_when_left_alone the_interview
              the_applicant [Q1; Q2] refusing 0 Q1 Q2
              [Interview.Speak "more"; Interview.ClickPause] []
              (on_first_question refusing))
    as (H1 & H2 & _).
  - exact scenario_ids_distinct.
  - reflexivity.
  - reflexivity.
  - reflexivity.
  - reflexivity.
  - reflexivity.
  - repeat constructor.
  - split; [exact H1 | exact H2].
Defined.

Lemma recording_resumed_during_submission_witness :
  Interview.route
    (Submission.submission the_interview the_applicant [Q1; Q2] accepting
       (Interview.id Q1) [Interview.ClickContinue] []
       (on_first_question accepting))
  = Interview.QuestionRoute (Interview.id Q2)
  ∧ Interview.listening
      (Interview.speech
         (Submission.submission the_interview the_applicant [Q1; Q2]
            accepting (Interview.id Q1) [Interview.ClickContinue] []
            (on_first_question accepting)))
    = true
  ∧ Interview.getRecordingButton
      (Submission.submission the_interview the_applicant [Q1; Q2] accepting
         (Interview.id Q1) [Interview.ClickContinue] []
         (on_first_question accepting))
    = None.
Proof.
  destruct (recording_resumed_during_submission the_interview the_applicant
              [Q1; Q2] accepting 0 Q1 Q2 [] (on_first_question accepting))
    as (H1 & _ & H3 & _ & H5 & _).
  - exact scenario_ids_distinct.
  - reflexivity.
  - reflexivity.
  - reflexivity.
  - reflexivity.
  - reflexivity.
  - right. reflexivity.
  - vm_compute in H1, H3, H5 |- *. repeat split.
Defined.

Lemma failed_submission_discards_answer_witness :
  Interview.store
    (Interview.handle the_interview the_applicant [Q1; Q2] refusing
       (on_first_question refusing) Interview.ClickNext)
  = Interview.store (on_first_question refusing)
  ∧ Interview.route
      (Interview.handle the_interview the_applicant [Q1; Q2] refusing
         (on_first_question refusing) Interview.ClickNext)
    = Interview.QuestionRoute (Interview.id Q2).
Proof.
  destruct (failed_submission_discards_answer the_interview the_applicant
              [Q1; Q2] refusing 0 Q1 Q2 (on_first_question refusing))
    as (H1 & _ & _ & H4 & _).
  - exact scenario_ids_distinct.
  - reflexivity.
  - reflexivity.
  - reflexivity.
  - reflexivity.
  - reflexivity.
  - reflexivity.
  - split; [exact H1 | exact H4].
Defined.

Lemma status_update_failure_after_last_answer_witness :
  Interview.applicant
    (Interview.store
       (Interview.handle the_interview the_applicant [Q1; Q2] refusing_third
          (on_second_question refusing_third) Interview.ClickNext))
  = Interview.applicant
      (Interview.store (on_second_question refusing_third))
  ∧ Interview.route
      (Interview.handle the_interview the_applicant [Q1; Q2] refusing_third
         (on_second_question refusing_third) Interview.ClickNext)
    = Interview.Complete.
Proof.
  destruct (status_update_failure_after_last_answer the_interview
              the_applicant [Q1; Q2] refusing_third (Interview.id Q2)
              (on_second_question refusing_third))
    as (_ & H2 & _ & _ & H5 & _).
  - reflexivity.
  - reflexivity.
  - reflexivity.
  - reflexivity.
  - reflexivity.
  - reflexivity.
  - split; [exact H2 | exact H5].
Defined.

Lemma walk_completes_whatever_fails_witness :
  Interview.route
    (after_rounds the_interview the_applicant [Q1; Q2] refusing not_started
       [first_answer; []] (length [Q1; Q2]))
  = Interview.Complete.
Proof.
  destruct (walk_completes_whatever_fails the_interview the_applicant
              [Q1; Q2] refusing not_started [first_answer; []])
    as (_ & H2 & _).
  - exact scenario_ids_distinct.
  - cbn. lia.
  - reflexivity.
  - repeat constructor.
  - exact H2.
Defined.

Lemma next_button_caption_matches_navigation_witness :
  next_button_caption [Q1; Q2] (Interview.id Q2)
    (on_second_question accepting) = "Complete Interview"
  ↔ Interview.route
      (Interview.handle the_interview the_applicant [Q1; Q2] accepting
         (on_second_question accepting) Interview.ClickNext)
    = Interview.Complete.
Proof.
  destruct (next_button_caption_matches_navigation the_interview
              the_applicant [Q1; Q2] accepting (Interview.id Q2)
              (on_second_question accepting))
    as (H1 & _).
  - reflexivity.
  - reflexivity.
  - reflexivity.
  - exact H1.
Defined.
